(** * Submission review and assignment taking: a shallow embedding

    The two page components of
    [src/app/dashboard/teacher/assignmentsubmission/page.tsx] are embedded
    as pure functions over explicit component state:

    - [Review]: [AssignmentSubmissionsClient], the teacher's list of
      submissions with its filter, its pagination and [saveGrade];
    - [Taking]: [AssignmentSubmitClient], the learner's answer draft with
      [setAnswer], [toggleMulti], the autosave effect, the load effect,
      [handleSubmit] and the discovery of an assignment.

    A [useState] cell is a record field, a state updater is a function on
    the record, the browser's [localStorage] is a finite map that is passed
    along, and what the network answers is an argument of the function that
    models the code after the [await]. *)

From Stdlib Require Import ZArith Ascii String.
From stdpp Require Import base option list gmap strings pretty.

Local Open Scope string_scope.
Local Open Scope Z_scope.
Local Open Scope list_scope.

(** ** The pieces of JavaScript the components rely on *)

Module JS.

(** [a || b] on strings: the empty string is the only falsy string;
    [undefined] is [None]. *)
Definition truthy_string (s : string) : bool :=
  if decide (s = "") then false else true.

Definition or_else (a : option string) (b : string) : string :=
  match a with
  | Some s => if truthy_string s then s else b
  | None => b
  end.

(** [a ?? b]. *)
Definition nullish {A} (a : option A) (b : A) : A := default b a.

(** White space that [String.prototype.trim] strips, within ASCII. *)
Definition is_white (c : ascii) : bool :=
  let n := nat_of_ascii c in
  ((9 <=? n)%nat && (n <=? 13)%nat) || (n =? 32)%nat.

Fixpoint trimStart (s : string) : string :=
  match s with
  | String c s' => if is_white c then trimStart s' else s
  | EmptyString => EmptyString
  end.

Fixpoint trimEnd (s : string) : string :=
  match s with
  | String c s' =>
      match trimEnd s' with
      | EmptyString => if is_white c then EmptyString else String c EmptyString
      | t => String c t
      end
  | EmptyString => EmptyString
  end.

Definition trim (s : string) : string := trimEnd (trimStart s).

(** [String.prototype.toLowerCase] on the ASCII letters. *)
Definition lower_char (c : ascii) : ascii :=
  let n := nat_of_ascii c in
  if ((65 <=? n)%nat && (n <=? 90)%nat)%bool then ascii_of_nat (n + 32) else c.

Fixpoint toLowerCase (s : string) : string :=
  match s with
  | String c s' => String (lower_char c) (toLowerCase s')
  | EmptyString => EmptyString
  end.

(** [s.includes(q)]: [q] occurs in [s] as a substring. *)
Fixpoint includes (s q : string) : bool :=
  String.prefix q s ||
  match s with
  | String _ s' => includes s' q
  | EmptyString => false
  end.

(** [n.toString()] for an integer [n]. *)
Definition toString (n : Z) : string := pretty n.

(** [arr.findIndex(p)]; [None] stands for [-1]. *)
Definition findIndex {A} (P : A → Prop) `{!∀ x, Decision (P x)}
    (l : list A) : option nat :=
  fst <$> list_find P l.

(** [arr.indexOf(x)] on an array of strings. *)
Definition indexOf (l : list string) (x : string) : option nat :=
  findIndex (λ y, y = x) l.

(** [arr.slice(start, end)], negative indices counting from the end. *)
Definition slice_index (len i : Z) : Z :=
  if i <? 0 then Z.max (len + i) 0 else Z.min i len.

Definition slice {A} (l : list A) (start stop : Z) : list A :=
  let len := Z.of_nat (length l) in
  let k := slice_index len start in
  let final := slice_index len stop in
  take (Z.to_nat (final - k)) (drop (Z.to_nat k) l).

(** JSON values, as [JSON.parse] returns them.  Numbers are the integers:
    no other number is read or written by the code modelled here.  The
    fields of an object are kept in the order of enumeration. *)
#[warnings="-register-all"]
Inductive json : Type :=
| JNull
| JBool (b : bool)
| JNum (n : Z)
| JStr (s : string)
| JArr (items : list json)
| JObj (fields : list (string * json)).

(** Truthiness of a parsed value. *)
Definition truthy (v : json) : bool :=
  match v with
  | JNull => false
  | JBool b => b
  | JNum n => negb (n =? 0)
  | JStr s => truthy_string s
  | JArr _ | JObj _ => true
  end.

Fixpoint assoc (k : string) (fields : list (string * json)) : option json :=
  match fields with
  | (k', v) :: rest => if decide (k' = k) then Some v else assoc k rest
  | [] => None
  end.

(** [v.k] for a property name [k] that no prototype defines (such as
    [answers] or [_id]) on a value [v] that is not [null]: [None] is
    [undefined]. *)
Definition prop (v : json) (k : string) : option json :=
  match v with
  | JObj fields => assoc k fields
  | _ => None
  end.

(** An object literal in which some properties are [undefined]:
    [JSON.stringify] leaves those out. *)
Definition object_of (fields : list (string * option json)) : json :=
  JObj (omap (λ kv, (kv.1,.) <$> kv.2) fields).

(** A text held by [localStorage], seen through [JSON.parse]: the parser
    either rejects the text or returns a value.  [JSON.stringify v] is the
    text that parses back to [v]. *)
Inductive text : Type :=
| Unparsable (raw : string)
| Encoded (v : json).

Definition JSON_parse (t : text) : option json :=
  match t with
  | Unparsable _ => None
  | Encoded v => Some v
  end.

Definition JSON_stringify (v : json) : text := Encoded v.

(** The only falsy text is the empty one, which is not JSON. *)
Definition truthy_text (t : text) : bool :=
  match t with
  | Unparsable raw => truthy_string raw
  | Encoded _ => true
  end.

(** What the HTTP layer hands back to an [await fetch(...)] followed by
    [res.json().catch(() => ({}))]: the request fails, or a status comes
    back with a body; [None] is a body that is not JSON. *)
Inductive Response (B : Type) : Type :=
| NetworkError (message : string)
| Http (status : Z) (body : option B).
Arguments NetworkError {B} message.
Arguments Http {B} status body.

(** A call of [fetch]: the URL, the method and the JSON body, if any. *)
Record Request : Type := mkRequest {
  url : string;
  method : string;
  body : option json
}.

(** [res.ok]. *)
Definition ok (status : Z) : bool := (200 <=? status) && (status <=? 299).

End JS.

Import JS.

(** ** The assignment-taking component: data *)

Module Taking.

(** [string | string[]]: the answer of an [AnswerEntry] and the
    [correctAnswer] of a [Question]. *)
Inductive Answer : Type :=
| Single (s : string)
| Multi (l : list string).

Definition Array_isArray (a : Answer) : bool :=
  match a with
  | Multi _ => true
  | Single _ => false
  end.

Record AnswerEntry : Type := mkAnswerEntry {
  questionId : string;
  answer : Answer
}.

Inductive QuestionType : Type :=
| MULTIPLE_CHOICE
| TRUE_FALSE
| SHORT_ANSWER
| ESSAY.

Record Question : Type := mkQuestion {
  question : string;
  q_type : QuestionType;
  options : option (list string);
  correctAnswer : option Answer;
  points : Z;
  order : option Z
}.

(** [Assignment], without the fields that are only displayed.  The code
    reads [a.questions || []], so the list may be missing. *)
Record Assignment : Type := mkAssignment {
  a_id : string;
  title : string;
  a_status : string;
  questions : option (list Question)
}.

Global Instance Answer_eq_dec : EqDecision Answer.
Proof. solve_decision. Defined.
Global Instance AnswerEntry_eq_dec : EqDecision AnswerEntry.
Proof. solve_decision. Defined.

(** *** Answer state *)

(** [((q.order ?? i) as number).toString()], the handle that ties a
    question to its entry, in the load effect and in [renderQuestion]. *)
Definition qId (q : Question) (i : nat) : string :=
  toString (nullish (order q) (Z.of_nat i)).

(** [Array.isArray(q.correctAnswer) ? [] : ''] *)
Definition blank (q : Question) : Answer :=
  match correctAnswer q with
  | Some c => if Array_isArray c then Multi [] else Single ""
  | None => Single ""
  end.

(** The [initial] array of the load effect. *)
Definition initial (a : Assignment) : list AnswerEntry :=
  imap (λ i q, {| questionId := qId q i; answer := blank q |})
       (default [] (questions a)).

(** What an updater handed to a [useState] setter returns: the very
    array it was given, in which case React keeps the state and runs no
    effect that depends on it, or a new one. *)
Inductive Update (A : Type) : Type :=
| Same
| Fresh (next : A).
Arguments Same {A}.
Arguments Fresh {A} next.

Definition settle {A} (prev : A) (u : Update A) : A :=
  match u with
  | Same => prev
  | Fresh next => next
  end.

(** [{ ...entry, answer: value }] *)
Definition with_answer (value : Answer) (entry : AnswerEntry) : AnswerEntry :=
  {| questionId := questionId entry; answer := value |}.

(** [(x) => x.questionId === questionId] *)
Definition has_id (id : string) (x : AnswerEntry) : Prop := questionId x = id.

Global Instance has_id_dec id x : Decision (has_id id x).
Proof. unfold has_id. apply _. Defined.

(** The updater of [setAnswer]. *)
Definition setAnswer_updater (id : string) (value : Answer)
    (prev : list AnswerEntry) : Update (list AnswerEntry) :=
  let copy := prev in
  match findIndex (has_id id) copy with
  | None => Fresh (copy ++ [ {| questionId := id; answer := value |} ])
  | Some idx => Fresh (alter (with_answer value) idx copy)
  end.

(** [Array.isArray(entry.answer) ? [...entry.answer] : []] *)
Definition current (entry : AnswerEntry) : list string :=
  match answer entry with
  | Multi l => l
  | Single _ => []
  end.

(** The four lines of [toggleMulti] that push or splice. *)
Definition toggled (cur : list string) (option : string) : list string :=
  match indexOf cur option with
  | None => cur ++ [option]
  | Some pos => delete pos cur
  end.

(** [{ ...entry, answer: current }] after the push or the splice. *)
Definition toggle_entry (option : string) (entry : AnswerEntry) : AnswerEntry :=
  with_answer (Multi (toggled (current entry) option)) entry.

(** The updater of [toggleMulti]. *)
Definition toggleMulti_updater (id : string) (option : string)
    (prev : list AnswerEntry) : Update (list AnswerEntry) :=
  let copy := prev in
  match findIndex (has_id id) copy with
  | None => Same
  | Some idx => Fresh (alter (toggle_entry option) idx copy)
  end.

(** The answers after [setAnswer(id, value)] and [toggleMulti(id, option)]. *)
Definition setAnswer (id : string) (value : Answer)
    (prev : list AnswerEntry) : list AnswerEntry :=
  settle prev (setAnswer_updater id value prev).

Definition toggleMulti (id : string) (option : string)
    (prev : list AnswerEntry) : list AnswerEntry :=
  settle prev (toggleMulti_updater id option prev).

(** *** Drafts in [localStorage] *)

Definition json_of_answer (a : Answer) : json :=
  match a with
  | Single s => JStr s
  | Multi l => JArr (JStr <$> l)
  end.

Definition json_of_entry (e : AnswerEntry) : json :=
  JObj [("questionId", JStr (questionId e)); ("answer", json_of_answer (answer e))].

(** The object [{ answers }] that the autosave effect serialises. *)
Definition json_of_draft (answers : list AnswerEntry) : json :=
  JObj [("answers", JArr (json_of_entry <$> answers))].

(** The cast [draft.answers as AnswerEntry[]] checks nothing.  The state
    is typed [AnswerEntry[]], so the model reads the parsed array at that
    type; [None] marks a stored array that is not one of answer entries,
    on which the cast is wrong and the model says nothing further. *)
Definition string_of_json (v : json) : option string :=
  match v with
  | JStr s => Some s
  | _ => None
  end.

Definition answer_of_json (v : json) : option Answer :=
  match v with
  | JStr s => Some (Single s)
  | JArr items => Multi <$> mapM string_of_json items
  | _ => None
  end.

Definition entry_of_json (v : json) : option AnswerEntry :=
  match v with
  | JObj [(k1, JStr id); (k2, a)] =>
      if decide (k1 = "questionId" ∧ k2 = "answer")
      then mkAnswerEntry id <$> answer_of_json a
      else None
  | _ => None
  end.

Definition as_AnswerEntries (items : list json) : option (list AnswerEntry) :=
  mapM entry_of_json items.

(** The immediately invoked function of the load effect:
    [getItem], then [JSON.parse] unless the text is falsy, and [null]
    when anything throws. *)
Definition read_draft (localStorage : gmap string text) (key : string) : json :=
  match localStorage !! key with
  | Some raw =>
      if truthy_text raw
      then match JSON_parse raw with
           | Some v => v
           | None => JNull
           end
      else JNull
  | None => JNull
  end.

(** [draft && Array.isArray(draft.answers)], with the array. *)
Definition draft_answers (draft : json) : option (list json) :=
  if truthy draft
  then match prop draft "answers" with
       | Some (JArr items) => Some items
       | _ => None
       end
  else None.

(** The answers that the load effect leaves in the state, [a] being the
    fetched assignment [(json && json.data) || json] and [prev] the
    answers before. *)
Definition restore (localStorage : gmap string text) (key : string)
    (a : option Assignment) (prev : list AnswerEntry) : option (list AnswerEntry) :=
  match draft_answers (read_draft localStorage key) with
  | Some items => as_AnswerEntries items
  | None =>
      match a with
      | Some a => Some (initial a)
      | None => Some prev
      end
  end.

(** *** Component state *)

Record SubmissionResponse : Type := mkSubmissionResponse {
  sr_id : string;
  sr_assignmentId : string;
  sr_studentId : string;
  sr_status : string;
  sr_score : option Z;
  sr_attemptNumber : Z;
  sr_submittedAt : string
}.

(** [ApiResponse<T>], every property of which the code treats as optional. *)
Record ApiResponse (T : Type) : Type := mkApiResponse {
  success : option bool;
  data : option T;
  message : option string
}.
Arguments mkApiResponse {T} success data message.
Arguments success {T} _.
Arguments data {T} _.
Arguments message {T} _.

(** The object that the submit endpoint answers with: an envelope or the
    bare result.  [{}] is the envelope without properties.  A body that
    parses to [null] or to a primitive is no answer of this endpoint and
    has no place in the type. *)
Inductive SubmitJson : Type :=
| Wrapped (envelope : ApiResponse SubmissionResponse)
| Bare (r : SubmissionResponse).

Definition empty_object : SubmitJson := Wrapped (mkApiResponse None None None).

(** [json.data || json] *)
Definition data_or_self (json : SubmitJson) : SubmitJson :=
  match json with
  | Wrapped envelope =>
      match data envelope with
      | Some d => Bare d
      | None => json
      end
  | Bare _ => json
  end.

(** [json.message] *)
Definition message_of (json : SubmitJson) : option string :=
  match json with
  | Wrapped envelope => message envelope
  | Bare _ => None
  end.

Inductive AlertType : Type := alert_success | alert_danger | alert_info.

Record Alert : Type := mkAlert {
  alert_type : AlertType;
  alert_message : string
}.

(** The [useState] cells and the refs of [AssignmentSubmitClient]. *)
Record Client : Type := mkClient {
  assignmentId : option string;
  assignment : option Assignment;
  loading : bool;
  error : option string;
  answers : list AnswerEntry;
  submitting : bool;
  result : option SubmitJson;
  alert : option Alert;
  startedAtRef : Z;
  timerRef : option positive;
  timeSpentSec : Z
}.

(** The component together with the browser: [localStorage] and the
    interval timers that are running. *)
Record World : Type := mkWorld {
  client : Client;
  localStorage : gmap string text;
  intervals : gset positive
}.

Definition with_assignmentId (v : option string) (c : Client) : Client :=
  mkClient v (assignment c) (loading c) (error c) (answers c) (submitting c)
           (result c) (alert c) (startedAtRef c) (timerRef c) (timeSpentSec c).
Definition with_assignment (v : option Assignment) (c : Client) : Client :=
  mkClient (assignmentId c) v (loading c) (error c) (answers c) (submitting c)
           (result c) (alert c) (startedAtRef c) (timerRef c) (timeSpentSec c).
Definition with_loading (v : bool) (c : Client) : Client :=
  mkClient (assignmentId c) (assignment c) v (error c) (answers c) (submitting c)
           (result c) (alert c) (startedAtRef c) (timerRef c) (timeSpentSec c).
Definition with_error (v : option string) (c : Client) : Client :=
  mkClient (assignmentId c) (assignment c) (loading c) v (answers c) (submitting c)
           (result c) (alert c) (startedAtRef c) (timerRef c) (timeSpentSec c).
Definition with_answers (v : list AnswerEntry) (c : Client) : Client :=
  mkClient (assignmentId c) (assignment c) (loading c) (error c) v (submitting c)
           (result c) (alert c) (startedAtRef c) (timerRef c) (timeSpentSec c).
Definition with_submitting (v : bool) (c : Client) : Client :=
  mkClient (assignmentId c) (assignment c) (loading c) (error c) (answers c) v
           (result c) (alert c) (startedAtRef c) (timerRef c) (timeSpentSec c).
Definition with_result (v : option SubmitJson) (c : Client) : Client :=
  mkClient (assignmentId c) (assignment c) (loading c) (error c) (answers c)
           (submitting c) v (alert c) (startedAtRef c) (timerRef c) (timeSpentSec c).
Definition with_alert (v : option Alert) (c : Client) : Client :=
  mkClient (assignmentId c) (assignment c) (loading c) (error c) (answers c)
           (submitting c) (result c) v (startedAtRef c) (timerRef c) (timeSpentSec c).
Definition with_startedAtRef (v : Z) (c : Client) : Client :=
  mkClient (assignmentId c) (assignment c) (loading c) (error c) (answers c)
           (submitting c) (result c) (alert c) v (timerRef c) (timeSpentSec c).
Definition with_timerRef (v : option positive) (c : Client) : Client :=
  mkClient (assignmentId c) (assignment c) (loading c) (error c) (answers c)
           (submitting c) (result c) (alert c) (startedAtRef c) v (timeSpentSec c).
Definition with_timeSpentSec (v : Z) (c : Client) : Client :=
  mkClient (assignmentId c) (assignment c) (loading c) (error c) (answers c)
           (submitting c) (result c) (alert c) (startedAtRef c) (timerRef c) v.

Definition on_client (f : Client → Client) (w : World) : World :=
  mkWorld (f (client w)) (localStorage w) (intervals w).
Definition with_localStorage (ls : gmap string text) (w : World) : World :=
  mkWorld (client w) ls (intervals w).
Definition with_intervals (ts : gset positive) (w : World) : World :=
  mkWorld (client w) (localStorage w) ts.

(** The state of a component that has just been mounted. *)
Definition mount (routeId : option string) : Client :=
  mkClient routeId None true None [] false None None 0 None 0.

(** [assignmentId ? `assignment_draft_${assignmentId}` : 'assignment_draft_unknown'] *)
Definition storage_key (assignmentId : option string) : string :=
  match assignmentId with
  | Some id => if truthy_string id then "assignment_draft_" +:+ id
               else "assignment_draft_unknown"
  | None => "assignment_draft_unknown"
  end.

Definition LOCAL_STORAGE_KEY (c : Client) : string := storage_key (assignmentId c).

(** *** Effects and handlers *)

(** [localStorage.setItem], which the browser may refuse (a full quota):
    [accepts] is the browser's verdict and [None] the exception. *)
Definition setItem (accepts : bool) (key : string) (value : text)
    (ls : gmap string text) : option (gmap string text) :=
  if accepts then Some (<[key := value]> ls) else None.

(** The autosave effect.  React runs it after a render in which
    [answers], [assignment] or the key changed. *)
Definition autosave (accepts : bool) (w : World) : World :=
  match assignment (client w) with
  | None => w
  | Some _ =>
      match setItem accepts (LOCAL_STORAGE_KEY (client w))
              (JSON_stringify (json_of_draft (answers (client w))))
              (localStorage w) with
      | Some ls => with_localStorage ls w
      | None => w
      end
  end.

(** [setAnswers(updater)] followed by the render it causes: when the
    updater returns the array it was given there is no new state and no
    effect runs; otherwise [answers] changed and the autosave effect runs. *)
Definition setAnswers (accepts : bool)
    (updater : list AnswerEntry → Update (list AnswerEntry)) (w : World) : World :=
  match updater (answers (client w)) with
  | Same => w
  | Fresh next => autosave accepts (on_client (with_answers next) w)
  end.

Definition call_setAnswer (accepts : bool) (id : string) (value : Answer) : World → World :=
  setAnswers accepts (setAnswer_updater id value).

Definition call_toggleMulti (accepts : bool) (id : string) (option : string) : World → World :=
  setAnswers accepts (toggleMulti_updater id option).

(** What the [try] block of the load effect ends with: an error with its
    message, or the assignment [(json && json.data) || json]. *)
Inductive Loaded : Type :=
| LoadFailed (message : string)
| LoadOk (a : option Assignment).

(** The load effect for the current [assignmentId].  [mounted] tells
    whether the component is still mounted when the answer arrives, [h]
    is the handle that [setInterval] returns and [now] is [Date.now()]. *)
Definition load_effect (outcome : Loaded) (mounted : bool) (h : positive) (now : Z)
    (accepts : bool) (w : World) : option World :=
  match assignmentId (client w) with
  | Some id =>
      if truthy_string id then
        let w := on_client (λ c, with_error None (with_loading true c)) w in
        if mounted then
          match outcome with
          | LoadFailed msg =>
              Some (on_client (λ c, with_loading false
                      (with_error (Some (or_else (Some msg) "Failed to load assignment")) c)) w)
          | LoadOk a =>
              restored ← restore (localStorage w) (LOCAL_STORAGE_KEY (client w)) a
                                 (answers (client w));
              Some (autosave accepts
                (with_intervals ({[ h ]} ∪ intervals w)
                  (on_client (λ c, with_loading false (with_timerRef (Some h)
                                (with_startedAtRef now (with_answers restored
                                  (with_assignment a c))))) w)))
          end
        else Some w
      else
        Some (on_client (λ c, with_loading false
                (with_error (Some "No assignment ID found in route.") c)) w)
  | None =>
      Some (on_client (λ c, with_loading false
              (with_error (Some "No assignment ID found in route.") c)) w)
  end.

(** One firing of the interval callback with handle [h] at time [now]:
    a cleared interval does not fire. *)
Definition tick (h : positive) (now : Z) (w : World) : World :=
  if decide (h ∈ intervals w)
  then on_client (λ c, with_timeSpentSec ((now - startedAtRef c) / 1000) c) w
  else w.

(** [if (timerRef.current) { clearInterval(timerRef.current); timerRef.current = null }] *)
Definition stop_timer (w : World) : World :=
  match timerRef (client w) with
  | Some h => with_intervals (intervals w ∖ {[ h ]}) (on_client (with_timerRef None) w)
  | None => w
  end.

Definition submit_request (id : string) (c : Client) : Request :=
  {| url := "/api/assignments/" +:+ id +:+ "/submit";
     method := "POST";
     body := Some (JObj [("answers", JArr (json_of_entry <$> answers c));
                         ("timeSpent", JNum (timeSpentSec c))]) |}.

(** [handleSubmit], run to its end without another event in between;
    [fetch] is what the network answers to the request.  The result is the
    world afterwards and the requests sent. *)
Definition handleSubmit (fetch : Request → Response SubmitJson) (w : World)
    : World * list Request :=
  match assignmentId (client w) with
  | Some id =>
      if truthy_string id then
        let key := LOCAL_STORAGE_KEY (client w) in
        let rq := submit_request id (client w) in
        let w := on_client (λ c, with_alert None (with_submitting true c)) w in
        let w :=
          match fetch rq with
          | NetworkError msg =>
              on_client (with_alert (Some (mkAlert alert_danger
                           (or_else (Some msg) "Submission failed")))) w
          | Http status body =>
              let json := default empty_object body in
              if ok status then
                let w := on_client (with_result (Some (data_or_self json))) w in
                let w := with_localStorage (delete key (localStorage w)) w in
                let w := stop_timer w in
                on_client (with_alert (Some (mkAlert alert_success
                             (or_else (message_of json) "Submitted successfully")))) w
              else
                let thrown := or_else (message_of json)
                                ("Submission failed (" +:+ toString status +:+ ")") in
                on_client (with_alert (Some (mkAlert alert_danger
                             (or_else (Some thrown) "Submission failed")))) w
          end in
        (on_client (with_submitting false) w, [rq])
      else
        (on_client (with_alert (Some (mkAlert alert_danger "Missing assignment ID."))) w, [])
  | None =>
      (on_client (with_alert (Some (mkAlert alert_danger "Missing assignment ID."))) w, [])
  end.

(** *** Discovery of an assignment *)

(** [string | { _id: string }]: a reference by identifier or by an
    embedded object, whose [_id] the code reads with [?.]. *)
Inductive Ref : Type :=
| ById (id : string)
| Embedded (id : option string).

(** [typeof r === 'string' ? r : r?._id] *)
Definition ref_id (r : Ref) : option string :=
  match r with
  | ById id => Some id
  | Embedded id => id
  end.

Record IEnrollment : Type := mkIEnrollment {
  e_id : string;
  e_studentId : Ref;
  e_courseId : Ref
}.

Record IAssignment : Type := mkIAssignment {
  ia_id : string;
  ia_courseId : Ref;
  ia_title : string
}.

(** What [await (await fetch(url)).json()] gives inside the [try] of
    the discovery: an exception, or a body with its [data], if any. *)
Inductive Fetched (T : Type) : Type :=
| Rejected
| Resolved (data : option T).
Arguments Rejected {T}.
Arguments Resolved {T} data.

(** The first three lines of the [try]: [None] when [JSON.parse] throws,
    otherwise [ee?._id], where [Some None] is [undefined]. *)
Definition read_userId (ls : gmap string text) : option (option json) :=
  match ls !! "user" with
  | Some dd =>
      if truthy_text dd
      then ee ← JSON_parse dd;
           Some (match ee with JNull => None | _ => prop ee "_id" end)
      else Some None
  | None => Some None
  end.

(** [sid === userId] *)
Definition same_id (sid : option string) (userId : json) : bool :=
  match sid, userId with
  | Some s, JStr u => bool_decide (s = u)
  | _, _ => false
  end.

(** [Array.from(new Set(xs))]: the first occurrences, in order. *)
Fixpoint unique (xs : list string) : list string :=
  match xs with
  | x :: rest => x :: filter (λ y, y ≠ x) (unique rest)
  | [] => []
  end.

Definition enrolledCourseIds (userId : json) (enrollments : list IEnrollment)
    : list string :=
  let myEnrollments :=
    List.filter (λ e, same_id (ref_id (e_studentId e)) userId) enrollments in
  unique (List.filter truthy_string (omap (λ e, ref_id (e_courseId e)) myEnrollments)).

Definition matched (enrolled : list string) (allAssignments : list IAssignment)
    : list IAssignment :=
  List.filter (λ a, match ref_id (ia_courseId a) with
                    | Some cid => truthy_string cid && bool_decide (cid ∈ enrolled)
                    | None => false
                    end) allAssignments.

(** [discoverAssignmentForUser]: the identifier it resolves, if any, and
    the URLs it fetched. *)
Definition discoverAssignmentForUser (ls : gmap string text)
    (enrollRes : Fetched (list IEnrollment))
    (assignRes : Fetched (list IAssignment)) : option string * list string :=
  match read_userId ls with
  | None => (None, [])
  | Some None => (None, [])
  | Some (Some userId) =>
      if truthy userId then
        match enrollRes with
        | Rejected => (None, ["/api/enrollments/my"])
        | Resolved data =>
            let enrollments := default [] data in
            let enrolled := enrolledCourseIds userId enrollments in
            if decide (length enrolled = 0%nat) then (None, ["/api/enrollments/my"])
            else
              match assignRes with
              | Rejected => (None, ["/api/enrollments/my"; "/api/assignments"])
              | Resolved data =>
                  let allAssignments := default [] data in
                  match matched enrolled allAssignments with
                  | [] => (None, ["/api/enrollments/my"; "/api/assignments"])
                  | first :: _ =>
                      (Some (ia_id first), ["/api/enrollments/my"; "/api/assignments"])
                  end
              end
        end
      else (None, [])
  end.

(** The discovery effect: nothing to do when an identifier is there;
    otherwise the discovery runs and [setAssignmentMydataId] is called
    when it found a match and the component is still mounted. *)
Definition discovery_effect (enrollRes : Fetched (list IEnrollment))
    (assignRes : Fetched (list IAssignment)) (mounted : bool) (w : World)
    : World * list string :=
  let skip :=
    match assignmentId (client w) with
    | Some id => truthy_string id
    | None => false
    end in
  if skip then (w, [])
  else
    match discoverAssignmentForUser (localStorage w) enrollRes assignRes with
    | (Some id, fetched) =>
        (if mounted then on_client (with_assignmentId (Some id)) w else w, fetched)
    | (None, fetched) => (w, fetched)
    end.

(** *** What a question shows *)

(** [answers.find((a) => a.questionId === qId)] *)
Definition entry_for (id : string) (answers : list AnswerEntry) : option AnswerEntry :=
  snd <$> list_find (has_id id) answers.

(** The [val] of [renderQuestion]:
    [entry?.answer ?? (Array.isArray(q.correctAnswer) ? [] : '')]. *)
Definition val (q : Question) (idx : nat) (answers : list AnswerEntry) : Answer :=
  match entry_for (qId q idx) answers with
  | Some entry => answer entry
  | None => blank q
  end.

(** [checked={Array.isArray(val) && val.includes(opt)}] *)
Definition checkbox_checked (v : Answer) (opt : string) : bool :=
  match v with
  | Multi l => bool_decide (opt ∈ l)
  | Single _ => false
  end.

(** [checked={val === opt}] *)
Definition radio_checked (v : Answer) (opt : string) : bool :=
  match v with
  | Single s => bool_decide (s = opt)
  | Multi _ => false
  end.

(** [value={typeof val === 'string' ? val : ''}] *)
Definition textarea_value (v : Answer) : string :=
  match v with
  | Single s => s
  | Multi _ => ""
  end.

(** The answers that the form can reach from the initial ones:
    [assignment.questions.map((q, idx) => renderQuestion(q, idx))] renders
    each question with its position; the [onChange] of a box calls
    [toggleMulti(qId, opt)], that of a radio button or of a text area calls
    [setAnswer] with a string, both with the [qId] of the question. *)
Inductive edited (a : Assignment) : list AnswerEntry → Prop :=
| edited_initial : edited a (initial a)
| edited_box es q idx option :
    edited a es → default [] (questions a) !! idx = Some q →
    edited a (toggleMulti (qId q idx) option es)
| edited_text es q idx s :
    edited a es → default [] (questions a) !! idx = Some q →
    edited a (setAnswer (qId q idx) (Single s) es).

(** The second [formatTime]: [`${m}m ${s}s`] with [m = Math.floor(sec / 60)]
    and [s = sec % 60], the remainder having the sign of [sec]. *)
Definition formatTime (sec : Z) : string :=
  let m := sec / 60 in
  let s := Z.rem sec 60 in
  toString m +:+ "m " +:+ toString s +:+ "s".

(** *** What is on the screen *)

(** The four early returns of the render, and the form. *)
Inductive Screen : Type :=
| NoIdScreen
| LoadingScreen
| ErrorScreen (message : string)
| NotFoundScreen
| FormScreen (a : Assignment).

(** [if (!assignmentId) ...; if (loading) ...; if (error) ...;
    if (!assignment) ...; return <form ...>] *)
Definition screen (c : Client) : Screen :=
  let rest :=
    match assignment c with
    | Some a => FormScreen a
    | None => NotFoundScreen
    end in
  if negb (match assignmentId c with Some id => truthy_string id | None => false end)
  then NoIdScreen
  else if loading c then LoadingScreen
  else match error c with
       | Some e => if truthy_string e then ErrorScreen e else rest
       | None => rest
       end.

End Taking.

(** ** The submission-review component *)

Module Review.

Definition PAGE_SIZE : Z := 12.

(** [score?: number | null] *)
Inductive Score : Type :=
| Undefined
| Null
| Num (n : Z).

Record StudentRef : Type := mkStudentRef {
  st_id : string;
  firstName : option string;
  lastName : option string;
  email : option string;
  avatar : option string
}.

(** [Submission]; the code reads [s.assignmentId ?? ""], so the model
    lets the identifier be missing. *)
Record Submission : Type := mkSubmission {
  s_id : string;
  assignmentId : option string;
  studentId : option StudentRef;
  status : string;
  score : Score;
  attemptNumber : Z;
  submittedAt : string;
  answers : option (list Taking.AnswerEntry);
  timeSpent : option Z
}.

(** [{ score?: number; feedback?: string }] *)
Record Grading : Type := mkGrading {
  g_score : option Z;
  g_feedback : option string
}.

(** The [useState] cells of [AssignmentSubmissionsClient]. *)
Record State : Type := mkState {
  useAllAssignments : bool;
  loading : bool;
  error : option string;
  submissions : list Submission;
  selected : option Submission;
  grading : option Grading;
  savingGrade : bool;
  filterStatus : string;
  search : string;
  page : Z
}.

Definition with_error (v : option string) (st : State) : State :=
  mkState (useAllAssignments st) (loading st) v (submissions st) (selected st)
          (grading st) (savingGrade st) (filterStatus st) (search st) (page st).
Definition with_submissions (v : list Submission) (st : State) : State :=
  mkState (useAllAssignments st) (loading st) (error st) v (selected st)
          (grading st) (savingGrade st) (filterStatus st) (search st) (page st).
Definition with_selected (v : option Submission) (st : State) : State :=
  mkState (useAllAssignments st) (loading st) (error st) (submissions st) v
          (grading st) (savingGrade st) (filterStatus st) (search st) (page st).
Definition with_grading (v : option Grading) (st : State) : State :=
  mkState (useAllAssignments st) (loading st) (error st) (submissions st)
          (selected st) v (savingGrade st) (filterStatus st) (search st) (page st).
Definition with_savingGrade (v : bool) (st : State) : State :=
  mkState (useAllAssignments st) (loading st) (error st) (submissions st)
          (selected st) (grading st) v (filterStatus st) (search st) (page st).
Definition with_page (v : Z) (st : State) : State :=
  mkState (useAllAssignments st) (loading st) (error st) (submissions st)
          (selected st) (grading st) (savingGrade st) (filterStatus st) (search st) v.

(** *** Filter and pagination *)

(** The three texts that the search looks into. *)
Definition name_of (s : Submission) : string :=
  match studentId s with
  | Some st =>
      toLowerCase (trim (nullish (firstName st) "" +:+ " " +:+ nullish (lastName st) ""))
  | None => ""
  end.

Definition email_of (s : Submission) : string :=
  match studentId s with
  | Some st => nullish (toLowerCase <$> email st) ""
  | None => ""
  end.

Definition aid_of (s : Submission) : string :=
  toLowerCase (nullish (assignmentId s) "").

Definition search_hit (q : string) (s : Submission) : bool :=
  includes (name_of s) q || includes (email_of s) q || includes (aid_of s) q.

Definition filteredList (st : State) : list Submission :=
  let list := submissions st in
  let list :=
    if negb (String.eqb (filterStatus st) "ALL")
    then List.filter (λ s, String.eqb (status s) (filterStatus st)) list
    else list in
  let list :=
    if truthy_string (trim (search st))
    then let q := toLowerCase (trim (search st)) in
         List.filter (search_hit q) list
    else list in
  list.

Definition totalFiltered (st : State) : Z := Z.of_nat (length (filteredList st)).

(** [Math.ceil(a / b)] for integers [a] and [b]. *)
Definition ceil_div (a b : Z) : Z := - ((- a) / b).

Definition totalPages (st : State) : Z :=
  Z.max 1 (ceil_div (totalFiltered st) PAGE_SIZE).

Definition pageItems (st : State) : list Submission :=
  let list := filteredList st in
  let start := (page st - 1) * PAGE_SIZE in
  slice list start (start + PAGE_SIZE).

(** *** Grading *)

Definition openDetail (sub : Submission) (st : State) : State :=
  with_grading
    (Some {| g_score := match score sub with Num n => Some n | _ => None end;
             g_feedback := None |})
    (with_selected (Some sub) st).

Definition closeDetail (st : State) : State :=
  with_grading None (with_selected None st).

Section Inputs.

(** [Number(v)] on the text of the score field. *)
Variable Number : string → Z.

Definition onChangeScore (v : string) (st : State) : State :=
  let n := if decide (v = "") then None else Some (Number v) in
  with_grading
    (Some {| g_score := n; g_feedback := grading st ≫= g_feedback |}) st.

End Inputs.

Definition onChangeFeedback (v : string) (st : State) : State :=
  with_grading
    (Some {| g_score := grading st ≫= g_score; g_feedback := Some v |}) st.

(** The JSON body of an answer, of which only [message] is read. *)
Record Body : Type := mkBody { message : option string }.

Definition grade_request (sel : Submission) (g : Grading) : Request :=
  {| url := "/api/submissions/" +:+ s_id sel;
     method := "PUT";
     body := Some (object_of [("score", JNum <$> g_score g);
                              ("status", Some (JStr "GRADED"));
                              ("feedback", JStr <$> g_feedback g)]) |}.

(** [{ ...p, score: grading.score ?? p.score, status: "GRADED" }] *)
Definition graded (g : Grading) (p : Submission) : Submission :=
  mkSubmission (s_id p) (assignmentId p) (studentId p) "GRADED"
    (match g_score g with Some n => Num n | None => score p end)
    (attemptNumber p) (submittedAt p) (answers p) (timeSpent p).

(** The two patches of the success path: [setSubmissions] on the rows
    with the identifier of the selected submission, then [setSelected]. *)
Definition apply_grade (sel : Submission) (g : Grading) (st : State) : State :=
  let st :=
    with_submissions
      (map (λ p, if decide (s_id p = s_id sel) then graded g p else p) (submissions st))
      st in
  with_selected (graded g <$> selected st) st.

(** [saveGrade], run to its end without another event in between;
    [fetch] is what the network answers.  The result is the state
    afterwards and the requests sent. *)
Definition saveGrade (fetch : Request → Response Body) (st : State)
    : State * list Request :=
  match selected st, grading st with
  | Some sel, Some g =>
      let st := with_savingGrade true st in
      let rq := grade_request sel g in
      let st :=
        match fetch rq with
        | NetworkError msg => with_error (Some msg) st
        | Http status body =>
            if ok status then closeDetail (apply_grade sel g st)
            else with_error
                   (Some (or_else (body ≫= message)
                            ("Failed to save (" +:+ toString status +:+ ")"))) st
        end in
      (with_savingGrade false st, [rq])
  | _, _ => (st, [])
  end.

(** *** Fetching the list, and the page buttons *)

Definition with_loading (v : bool) (st : State) : State :=
  mkState (useAllAssignments st) v (error st) (submissions st) (selected st)
          (grading st) (savingGrade st) (filterStatus st) (search st) (page st).
Definition with_filterStatus (v : string) (st : State) : State :=
  mkState (useAllAssignments st) (loading st) (error st) (submissions st)
          (selected st) (grading st) (savingGrade st) v (search st) (page st).
Definition with_search (v : string) (st : State) : State :=
  mkState (useAllAssignments st) (loading st) (error st) (submissions st)
          (selected st) (grading st) (savingGrade st) (filterStatus st) v (page st).








(** The handlers of the controls above and below the table. *)
Definition onChangeSearch (v : string) (st : State) : State := with_search v st.

Definition onChangeFilterStatus (v : string) (st : State) : State :=
  with_page 1 (with_filterStatus v st).

Definition prevPage (st : State) : State := with_page (Z.max 1 (page st - 1)) st.

Definition nextPage (st : State) : State :=
  with_page (Z.min (totalPages st) (page st + 1)) st.

(** The two numbers of "Showing ... - ... of ...". *)
Definition showing_from (st : State) : Z := (page st - 1) * PAGE_SIZE + 1.

Definition showing_to (st : State) : Z := Z.min (page st * PAGE_SIZE) (totalFiltered st).

(** The first [formatTime]: a missing duration is a dash; otherwise hours,
    minutes and seconds, each left out when it is zero, and ["0s"] when
    nothing is left. *)
Definition formatTime (seconds : option Z) : string :=
  match seconds with
  | None => "—"
  | Some seconds =>
      let s := seconds in
      let hrs := s / 3600 in
      let mins := Z.rem s 3600 / 60 in
      let secs := Z.rem s 60 in
      or_else
        (Some (trim ((if hrs =? 0 then "" else toString hrs +:+ "h ")
                     +:+ (if mins =? 0 then "" else toString mins +:+ "m ")
                     +:+ (if secs =? 0 then "" else toString secs +:+ "s"))))
        "0s"
  end.

End Review.


(** * The words of the specification

    The notions that the specification uses to state its properties, each
    written after its sentence rather than after the code. *)

Module TakingSpec.
Import Taking.

(** The identifiers that the questions of an assignment resolve to, in the
    order of the questions. *)
Definition question_ids (a : Assignment) : list string :=
  imap (λ i q, qId q i) (default [] (questions a)).

(** The invariant of the draft: no two questions resolve to the same
    identifier, and the identifiers of the entries are those of the
    questions, each once. *)
Definition one_entry_per_question (a : Assignment) (es : list AnswerEntry) : Prop :=
  NoDup (question_ids a) ∧ questionId <$> es ≡ₚ question_ids a.

(** A well-formed cached draft under [key]: the stored text parses to an
    object whose [answers] is an array. *)
Definition cached_draft (ls : gmap string text) (key : string) (items : list json) : Prop :=
  ∃ raw fields,
    ls !! key = Some raw ∧ JSON_parse raw = Some (JObj fields) ∧
    assoc "answers" fields = Some (JArr items).

(** A cached user record: the text under [user] parses to an object whose
    [_id] is a non-empty string. *)
Definition cached_user (ls : gmap string text) (u : string) : Prop :=
  ∃ raw fields,
    ls !! "user" = Some raw ∧ JSON_parse raw = Some (JObj fields) ∧
    assoc "_id" fields = Some (JStr u) ∧ u ≠ "".

(** [cid] is the identifier of a course in which the user [u] is enrolled. *)
Definition enrolled (u : string) (enrollments : list IEnrollment) (cid : string) : Prop :=
  cid ≠ "" ∧
  ∃ e, e ∈ enrollments ∧ ref_id (e_studentId e) = Some u ∧ ref_id (e_courseId e) = Some cid.

(** The assignment belongs to such a course. *)
Definition of_enrolled_course (u : string) (enrollments : list IEnrollment)
    (a : IAssignment) : Prop :=
  ∃ cid, ref_id (ia_courseId a) = Some cid ∧ enrolled u enrollments cid.

End TakingSpec.

Module ReviewSpec.
Import Review.

(** [field] contains [text], whatever the case of the letters. *)
Definition contains_ci (field text : string) : bool :=
  includes (toLowerCase field) (toLowerCase text).

(** The name of the student as the table shows it, and the email. *)
Definition student_name (s : Submission) : string :=
  match studentId s with
  | Some st => trim (nullish (firstName st) "" +:+ " " +:+ nullish (lastName st) "")
  | None => ""
  end.

Definition student_email (s : Submission) : string :=
  nullish (studentId s ≫= email) "".

(** The submissions that the filter keeps: the status is the selected one,
    unless all are selected, and, unless the search text is blank, the
    name, the email or the assignment identifier contains the search text
    without the white space around it. *)
Definition kept (st : State) (s : Submission) : bool :=
  (String.eqb (filterStatus st) "ALL" || String.eqb (status s) (filterStatus st)) &&
  (negb (truthy_string (trim (search st)))
   || contains_ci (student_name s) (trim (search st))
   || contains_ci (student_email s) (trim (search st))
   || contains_ci (nullish (assignmentId s) "") (trim (search st))).



End ReviewSpec.


(** * Properties *)

(** A decidable statement about closed terms, settled by evaluation. *)
Ltac by_evaluation := apply (bool_decide_unpack _); vm_compute; exact I.

(** ** Searching an array *)

Section findIndex.
Context {A : Type} (P : A → Prop) `{!∀ x, Decision (P x)}.
Implicit Types l : list A.

Lemma findIndex_Some l i :
  findIndex P l = Some i ↔
  ∃ x, l !! i = Some x ∧ P x ∧ ∀ j y, l !! j = Some y → (j < i)%nat → ¬ P y.
Proof.
  unfold findIndex. split.
  - intros [[j x] [Hfind ->]]%fmap_Some. apply list_find_Some in Hfind. eauto.
  - intros (x & Hfind). apply (list_find_Some P) in Hfind. by rewrite Hfind.
Qed.

Lemma findIndex_None l : findIndex P l = None ↔ Forall (λ x, ¬ P x) l.
Proof. unfold findIndex. rewrite fmap_None. apply list_find_None. Qed.

Lemma findIndex_lookup l i : findIndex P l = Some i → is_Some (l !! i).
Proof. intros (x & Hx & _)%findIndex_Some. eauto. Qed.

(** An update in place that keeps the searched property at [i], and
    changes nothing else, does not move the first match. *)
Lemma findIndex_alter (f : A → A) l i :
  findIndex P l = Some i → (∀ x, P x → P (f x)) →
  findIndex P (alter f i l) = Some i.
Proof.
  intros (x & Hx & HP & Hfirst)%findIndex_Some Hf. apply findIndex_Some.
  exists (f x). split_and!.
  - by rewrite list_lookup_alter_eq, Hx.
  - auto.
  - intros j y Hy Hlt. rewrite list_lookup_alter_ne in Hy by lia. eauto.
Qed.

End findIndex.

Lemma indexOf_None (l : list string) x : indexOf l x = None ↔ x ∉ l.
Proof.
  unfold indexOf. rewrite findIndex_None, Forall_forall. split.
  - intros H Hx. by apply (H x).
  - intros H y Hy ->. done.
Qed.

Lemma indexOf_Some (l : list string) x i :
  indexOf l x = Some i ↔ l !! i = Some x ∧ ∀ j, (j < i)%nat → l !! j ≠ Some x.
Proof.
  unfold indexOf. rewrite findIndex_Some. split.
  - intros (y & Hy & -> & Hfirst). split; [done|].
    intros j Hlt Hj. by apply (Hfirst j x).
  - intros [Hi Hfirst]. exists x. split_and!; [done..|].
    intros j y Hj Hlt ->. by apply (Hfirst j).
Qed.

(** [indexOf] finds what was just pushed at the end of an array that did
    not hold it. *)
Lemma indexOf_pushed (l : list string) x :
  x ∉ l → indexOf (l ++ [x]) x = Some (length l).
Proof.
  intros Hx. apply indexOf_Some. split.
  - by rewrite lookup_app_r, Nat.sub_diag.
  - intros j Hlt Hj. rewrite lookup_app_l in Hj by done.
    apply Hx. by eapply list_elem_of_lookup_2.
Qed.

(** In an array without repetition, [splice(pos, 1)] at the position of
    [x] leaves no [x] behind. *)
Lemma spliced_NoDup_absent (l : list string) x i :
  NoDup l → l !! i = Some x → x ∉ delete i l.
Proof.
  intros Hnd Hi Hin.
  pose proof (delete_Permutation l i x Hi) as Hperm.
  rewrite Hperm in Hnd. by apply NoDup_cons in Hnd as [? _].
Qed.

Lemma alter_lookup_insert {A} (f : A → A) (l : list A) i x :
  l !! i = Some x → alter f i l = <[i := f x]> l.
Proof.
  intros Hx. apply list_eq. intros j. destruct (decide (i = j)) as [<-|Hne].
  - rewrite list_lookup_alter_eq, Hx, list_lookup_insert_eq; [done|].
    by eapply lookup_lt_Some.
  - by rewrite list_lookup_alter_ne, list_lookup_insert_ne.
Qed.

Lemma fmap_alter_invariant {A B} (f : A → B) (g : A → A) (l : list A) i :
  (∀ x, f (g x) = f x) → f <$> alter g i l = f <$> l.
Proof.
  intros Hfg. apply list_eq. intros j. rewrite !list_lookup_fmap.
  destruct (decide (i = j)) as [<-|Hne].
  - rewrite list_lookup_alter_eq. destruct (l !! i); simpl; by rewrite ?Hfg.
  - by rewrite list_lookup_alter_ne.
Qed.

(** ** Answers: [setAnswer] and [toggleMulti] *)

Module TakingProofs.
Import Taking TakingSpec.

(** *** Pushing and splicing one option *)

Lemma toggled_absent cur option : option ∉ cur → toggled cur option = cur ++ [option].
Proof. intros H. unfold toggled. by rewrite (proj2 (indexOf_None _ _) H). Qed.

Lemma toggled_present cur option :
  option ∈ cur → ∃ pos, indexOf cur option = Some pos ∧ toggled cur option = delete pos cur.
Proof.
  intros H. unfold toggled. destruct (indexOf cur option) as [pos|] eqn:Hpos; [eauto|].
  by apply indexOf_None in Hpos.
Qed.

Lemma toggled_NoDup cur option : NoDup cur → NoDup (toggled cur option).
Proof.
  intros Hnd. destruct (decide (option ∈ cur)) as [Hin|Hout].
  - destruct (toggled_present _ _ Hin) as (pos & [Hpos _]%indexOf_Some & ->).
    pose proof (delete_Permutation _ _ _ Hpos) as Hperm.
    rewrite Hperm in Hnd. by apply NoDup_cons in Hnd as [_ ?].
  - rewrite toggled_absent by done. apply NoDup_app. split_and!; [done| |apply NoDup_singleton].
    intros x Hx ->%list_elem_of_singleton. done.
Qed.

(** Toggling twice gives back the same options; the array itself comes
    back when the option was not selected, and otherwise the option moves
    to the end. *)
Lemma toggled_twice cur option :
  NoDup cur →
  toggled (toggled cur option) option ≡ₚ cur ∧
  (option ∉ cur → toggled (toggled cur option) option = cur).
Proof.
  intros Hnd. destruct (decide (option ∈ cur)) as [Hin|Hout].
  - split; [|done].
    destruct (toggled_present _ _ Hin) as (pos & [Hpos _]%indexOf_Some & ->).
    rewrite toggled_absent by eauto using spliced_NoDup_absent.
    rewrite (delete_Permutation _ _ _ Hpos) at 2.
    by rewrite Permutation_app_comm.
  - assert (toggled (toggled cur option) option = cur) as ->; [|done].
    rewrite (toggled_absent cur) by done. unfold toggled.
    rewrite indexOf_pushed by done.
    by rewrite delete_middle, app_nil_r.
Qed.

(** What one toggle does to the set of options. *)
Lemma toggled_elem cur option x :
  NoDup cur →
  x ∈ toggled cur option ↔
  if decide (option ∈ cur) then x ∈ cur ∧ x ≠ option else x ∈ cur ∨ x = option.
Proof.
  intros Hnd. destruct (decide (option ∈ cur)) as [Hin|Hout].
  - destruct (toggled_present _ _ Hin) as (pos & [Hpos _]%indexOf_Some & ->).
    pose proof (spliced_NoDup_absent _ _ _ Hnd Hpos) as Hgone.
    pose proof (delete_Permutation _ _ _ Hpos) as Hperm. split.
    + intros Hx. split; [by eapply list_elem_of_delete_inv|]. by intros ->.
    + intros [Hx Hne]. rewrite Hperm in Hx. apply elem_of_cons in Hx as [?|?]; done.
  - rewrite toggled_absent by done. by rewrite elem_of_app, list_elem_of_singleton.
Qed.

(** *** The updaters *)

Lemma toggleMulti_found id option prev idx :
  findIndex (has_id id) prev = Some idx →
  toggleMulti id option prev = alter (toggle_entry option) idx prev.
Proof. intros H. unfold toggleMulti, toggleMulti_updater. by rewrite H. Qed.

Lemma toggleMulti_missing id option prev :
  findIndex (has_id id) prev = None →
  toggleMulti_updater id option prev = Same ∧ toggleMulti id option prev = prev.
Proof. intros H. unfold toggleMulti, toggleMulti_updater. by rewrite H. Qed.

Lemma setAnswer_found id value prev idx :
  findIndex (has_id id) prev = Some idx →
  setAnswer id value prev = alter (with_answer value) idx prev.
Proof. intros H. unfold setAnswer, setAnswer_updater. by rewrite H. Qed.

Lemma setAnswer_missing id value prev :
  findIndex (has_id id) prev = None →
  setAnswer id value prev = prev ++ [mkAnswerEntry id value].
Proof. intros H. unfold setAnswer, setAnswer_updater. by rewrite H. Qed.

Lemma toggleMulti_twice_found id option prev idx :
  findIndex (has_id id) prev = Some idx →
  toggleMulti id option (toggleMulti id option prev)
  = alter (toggle_entry option ∘ toggle_entry option) idx prev.
Proof.
  intros H. rewrite (toggleMulti_found _ _ prev idx) by done.
  rewrite (toggleMulti_found _ _ _ idx) by (by apply findIndex_alter).
  apply list_alter_alter_eq.
Qed.

(** The identifiers of the entries, in their order, are what neither
    function changes as long as the entry is found. *)
Lemma toggleMulti_ids id option prev :
  questionId <$> toggleMulti id option prev = questionId <$> prev.
Proof.
  destruct (findIndex (has_id id) prev) as [idx|] eqn:H.
  - rewrite (toggleMulti_found _ _ _ idx) by done. by apply fmap_alter_invariant.
  - by rewrite (proj2 (toggleMulti_missing _ option _ H)).
Qed.

Lemma setAnswer_ids_found id value prev :
  id ∈ questionId <$> prev →
  questionId <$> setAnswer id value prev = questionId <$> prev.
Proof.
  intros Hin. destruct (findIndex (has_id id) prev) as [idx|] eqn:H.
  - rewrite (setAnswer_found _ _ _ idx) by done. by apply fmap_alter_invariant.
  - apply findIndex_None in H. rewrite Forall_forall in H.
    apply list_elem_of_fmap in Hin as (e & -> & He). by destruct (H e He).
Qed.

(** *** Toggling once and twice *)

(** C4, as amended.  [toggleMulti(id, option)] changes nothing, and returns
    the array it was given, when no entry has the identifier.  Otherwise it
    rewrites the first entry with that identifier and leaves the rest
    alone.  When the options of that entry hold no repetition (a string
    counts as no option, as in the code), one call appends the option if it
    was not selected and removes it if it was, and two calls give back the
    same set of options: the same array when the option was not selected,
    the option moved to the end when it was. *)
Theorem toggleMulti_twice_same_options (prev : list AnswerEntry) (id option : string) :
  (findIndex (has_id id) prev = None →
   toggleMulti_updater id option prev = Same ∧ toggleMulti id option prev = prev) ∧
  (∀ idx entry,
     findIndex (has_id id) prev = Some idx → prev !! idx = Some entry →
     NoDup (current entry) →
     let once := toggled (current entry) option in
     let twice := toggled once option in
     toggleMulti id option prev = <[idx := with_answer (Multi once) entry]> prev ∧
     (option ∉ current entry → once = current entry ++ [option]) ∧
     (option ∈ current entry →
      (option ∉ once) ∧ ∀ x, x ≠ option → (x ∈ once ↔ x ∈ current entry)) ∧
     toggleMulti id option (toggleMulti id option prev)
       = <[idx := with_answer (Multi twice) entry]> prev ∧
     twice ≡ₚ current entry ∧
     (answer entry = Multi (current entry) → option ∉ current entry →
      toggleMulti id option (toggleMulti id option prev) = prev)).
Proof.
  split; [apply toggleMulti_missing|].
  intros idx entry Hidx Hentry Hnd. cbv zeta.
  destruct (toggled_twice (current entry) option Hnd) as [Hperm Hsame].
  assert (toggleMulti id option (toggleMulti id option prev)
          = <[idx := with_answer (Multi (toggled (toggled (current entry) option) option))
                       entry]> prev) as Htwice.
  { rewrite (toggleMulti_twice_found _ _ _ idx) by done.
    by rewrite (alter_lookup_insert _ _ _ _ Hentry). }
  split_and!.
  - rewrite (toggleMulti_found _ _ _ idx) by done.
    by rewrite (alter_lookup_insert _ _ _ _ Hentry).
  - apply toggled_absent.
  - intros Hin. split.
    + intros Hin'. apply (toggled_elem _ option option Hnd) in Hin'.
      rewrite decide_True in Hin' by done. by destruct Hin'.
    + intros x Hx. rewrite (toggled_elem _ option x Hnd), decide_True by done.
      split; [by intros [? _] | by split].
  - done.
  - done.
  - intros Hmulti Hout. rewrite Htwice, Hsame by done.
    apply list_insert_id. rewrite Hentry. f_equal.
    destruct entry as [q a]; simpl in *. unfold with_answer; simpl. by rewrite Hmulti.
Qed.

Lemma toggleMulti_twice_same_options_witness :
  let prev := [mkAnswerEntry "0" (Multi ["A"; "B"]); mkAnswerEntry "1" (Single "x")] in
  toggleMulti "0" "A" prev
    = [mkAnswerEntry "0" (Multi ["B"]); mkAnswerEntry "1" (Single "x")] ∧
  toggleMulti "0" "A" (toggleMulti "0" "A" prev)
    = [mkAnswerEntry "0" (Multi ["B"; "A"]); mkAnswerEntry "1" (Single "x")] ∧
  ["B"; "A"] ≡ₚ ["A"; "B"].
Proof.
  intros prev.
  destruct (toggleMulti_twice_same_options prev "0" "A") as [_ H].
  assert (NoDup ["A"; "B"]) as Hnd by by_evaluation.
  destruct (H 0%nat (mkAnswerEntry "0" (Multi ["A"; "B"])) eq_refl eq_refl Hnd)
    as (Honce & _ & _ & Htwice & Hperm & _).
  split_and!; [exact Honce | exact Htwice | exact Hperm].
Defined.

(** C4 as stated fails on an entry that holds an option twice: one call
    removes the first occurrence only, so the option is still selected, and
    after the second call the option, selected at the start, is gone: the
    set of options is not the one before. *)
Lemma toggleMulti_twice_repeated_option :
  let entry := mkAnswerEntry "0" (Multi ["A"; "A"]) in
  let once := toggleMulti "0" "A" [entry] in
  let twice := toggleMulti "0" "A" once in
  "A" ∈ current entry ∧
  once = [with_answer (Multi ["A"]) entry] ∧ "A" ∈ ["A"] ∧
  twice = [with_answer (Multi []) entry] ∧
  ¬ (∀ x, x ∈ @nil string ↔ x ∈ current entry) ∧
  twice ≠ [entry].
Proof.
  cbv zeta. split_and!.
  - by left.
  - reflexivity.
  - by left.
  - reflexivity.
  - intros Hsame. apply (not_elem_of_nil "A"), Hsame. by left.
  - discriminate.
Qed.

(** C9.  When the first entry with the identifier holds a string, the
    string counts as no selection: one call of [toggleMulti] leaves the
    array with the option alone, a second call with the same option leaves
    the empty array, and whatever option the second call is made with, the
    entry then holds an array and so differs from the entry with the string. *)
Theorem toggleMulti_discards_string (prev : list AnswerEntry) (id option : string)
    (idx : nat) (entry : AnswerEntry) (s : string) :
  findIndex (has_id id) prev = Some idx → prev !! idx = Some entry →
  answer entry = Single s →
  toggleMulti id option prev = <[idx := with_answer (Multi [option]) entry]> prev ∧
  toggleMulti id option (toggleMulti id option prev)
    = <[idx := with_answer (Multi []) entry]> prev ∧
  ∀ option', ∃ l,
    toggleMulti id option' (toggleMulti id option prev) !! idx
      = Some (with_answer (Multi l) entry) ∧
    with_answer (Multi l) entry ≠ entry.
Proof.
  intros Hidx Hentry Hs.
  assert (current entry = []) as Hcur by (unfold current; by rewrite Hs).
  assert (toggleMulti id option prev = <[idx := with_answer (Multi [option]) entry]> prev)
    as Honce.
  { rewrite (toggleMulti_found _ _ _ idx) by done.
    rewrite (alter_lookup_insert _ _ _ _ Hentry). unfold toggle_entry.
    by rewrite Hcur. }
  assert (idx < length prev)%nat as Hlt by (by eapply lookup_lt_Some).
  split_and!.
  - done.
  - rewrite (toggleMulti_twice_found _ _ _ idx) by done.
    rewrite (alter_lookup_insert _ _ _ _ Hentry). f_equal.
    destruct (toggled_twice [] option) as [_ Hback]; [constructor|].
    unfold compose, toggle_entry. rewrite Hcur.
    change (current (with_answer (Multi (toggled [] option)) entry))
      with (toggled [] option).
    by rewrite Hback by set_solver.
  - intros option'. exists (toggled [option] option'). split.
    + assert (findIndex (has_id id) (toggleMulti id option prev) = Some idx) as Hidx'.
      { rewrite (toggleMulti_found _ _ _ idx) by done. by apply findIndex_alter. }
      rewrite (toggleMulti_found _ _ _ idx) by done.
      by rewrite list_lookup_alter_eq, Honce, list_lookup_insert_eq by done.
    + intros Heq. apply (f_equal answer) in Heq. simpl in Heq. congruence.
Qed.

Lemma toggleMulti_discards_string_witness :
  let prev := [mkAnswerEntry "0" (Single "stale")] in
  toggleMulti "0" "A" prev = [mkAnswerEntry "0" (Multi ["A"])] ∧
  toggleMulti "0" "A" (toggleMulti "0" "A" prev) = [mkAnswerEntry "0" (Multi [])].
Proof.
  intros prev.
  destruct (toggleMulti_discards_string prev "0" "A" 0%nat
              (mkAnswerEntry "0" (Single "stale")) "stale" eq_refl eq_refl eq_refl)
    as (Honce & Htwice & _).
  split; [exact Honce | exact Htwice].
Defined.

(** *** Arrays without a repeated option

    The component itself never builds an entry that holds an option twice:
    the initial answers hold none, [toggleMulti] keeps it so, and the
    radio buttons and text fields call [setAnswer] with a string. *)

Lemma initial_no_repetition a : Forall (λ e, NoDup (current e)) (initial a).
Proof.
  apply Forall_forall. intros e (i & q & -> & _)%elem_of_lookup_imap.
  unfold current, blank; simpl.
  destruct (correctAnswer q) as [[|]|]; simpl; constructor.
Qed.

Lemma toggleMulti_no_repetition id option es :
  Forall (λ e, NoDup (current e)) es →
  Forall (λ e, NoDup (current e)) (toggleMulti id option es).
Proof.
  intros Hes. destruct (findIndex (has_id id) es) as [idx|] eqn:Hidx.
  - rewrite (toggleMulti_found _ _ _ idx) by done.
    apply Forall_alter; [done|]. intros e _ He. by apply toggled_NoDup.
  - by rewrite (proj2 (toggleMulti_missing _ option _ Hidx)).
Qed.

Lemma setAnswer_no_repetition id s es :
  Forall (λ e, NoDup (current e)) es →
  Forall (λ e, NoDup (current e)) (setAnswer id (Single s) es).
Proof.
  intros Hes. destruct (findIndex (has_id id) es) as [idx|] eqn:Hidx.
  - rewrite (setAnswer_found _ _ _ idx) by done.
    apply Forall_alter; [done|]. intros e _ _. constructor.
  - rewrite setAnswer_missing by done. apply Forall_app. split; [done|].
    repeat constructor.
Qed.

(** *** One entry per question *)

Lemma initial_ids a : questionId <$> initial a = question_ids a.
Proof. unfold initial, question_ids. by rewrite fmap_imap. Qed.


(** Questions without an explicit order resolve to their positions, which
    differ. *)
Lemma question_ids_positional a :
  Forall (λ q, order q = None) (default [] (questions a)) → NoDup (question_ids a).
Proof.
  intros Hnone. unfold question_ids.
  rewrite (imap_ext _ (λ i _, toString (Z.of_nat i))).
  - rewrite imap_seq_0. apply NoDup_fmap_2; [|apply NoDup_seq].
    intros i j Hij. unfold toString in Hij. apply (inj pretty) in Hij. lia.
  - intros i q Hq. rewrite Forall_forall in Hnone. unfold qId, nullish.
    by rewrite (Hnone q) by (by eapply list_elem_of_lookup_2).
Qed.

(** In an array without repeated identifiers, an identifier addresses one
    entry. *)
Lemma NoDup_ids_addressable (es : list AnswerEntry) id :
  NoDup (questionId <$> es) → id ∈ questionId <$> es →
  ∃ idx, findIndex (has_id id) es = Some idx ∧
         ∀ j e, es !! j = Some e → questionId e = id → j = idx.
Proof.
  intros Hnd Hin.
  destruct (findIndex (has_id id) es) as [idx|] eqn:Hfind.
  - exists idx. split; [done|]. intros j e Hj He.
    apply findIndex_Some in Hfind as (x & Hx & Hid & _).
    apply (NoDup_lookup _ j idx id Hnd); rewrite list_lookup_fmap.
    + by rewrite Hj; simpl; rewrite He.
    + by rewrite Hx; simpl; rewrite Hid.
  - apply findIndex_None in Hfind. rewrite Forall_forall in Hfind.
    apply list_elem_of_fmap in Hin as (e & -> & He). by destruct (Hfind e He).
Qed.

(** C5, as amended.  For an assignment whose questions resolve to
    pairwise different identifiers, the initial answers hold one entry per
    question; and from answers that hold one entry per question, every
    identifier of a question addresses exactly one entry, [toggleMulti]
    keeps the invariant, and so does [setAnswer] for the identifier of a
    question. *)
Theorem one_entry_per_question_kept (a : Assignment) :
  NoDup (question_ids a) →
  one_entry_per_question a (initial a) ∧
  ∀ es, one_entry_per_question a es →
    NoDup (questionId <$> es) ∧
    (∀ id, id ∈ question_ids a →
       ∃ idx, findIndex (has_id id) es = Some idx ∧
              ∀ j e, es !! j = Some e → questionId e = id → j = idx) ∧
    (∀ id option, one_entry_per_question a (toggleMulti id option es)) ∧
    (∀ id value, id ∈ question_ids a →
       one_entry_per_question a (setAnswer id value es)).
Proof.
  intros Hnd. split.
  - split; [done|]. by rewrite initial_ids.
  - intros es [_ Hperm].
    assert (NoDup (questionId <$> es)) as Hnd' by (by rewrite Hperm).
    split_and!.
    + done.
    + intros id Hid. apply NoDup_ids_addressable; [done|]. by rewrite Hperm.
    + intros id option. split; [done|]. by rewrite toggleMulti_ids.
    + intros id value Hid. split; [done|].
      rewrite setAnswer_ids_found; [done|]. by rewrite Hperm.
Qed.

Lemma one_entry_per_question_kept_witness :
  let a := mkAssignment "a1" "Quiz" "PUBLISHED"
             (Some [mkQuestion "Pick" MULTIPLE_CHOICE (Some ["A"; "B"]) (Some (Multi ["A"])) 1 None;
                    mkQuestion "Why" ESSAY None None 1 None]) in
  one_entry_per_question a (initial a) ∧
  one_entry_per_question a (setAnswer "1" (Single "because") (toggleMulti "0" "B" (initial a))).
Proof.
  intros a.
  assert (NoDup (question_ids a)) as Hnd
    by by_evaluation.
  destruct (one_entry_per_question_kept a Hnd) as [Hinit Hkept].
  split; [exact Hinit|].
  destruct (Hkept _ Hinit) as (_ & _ & Htoggle & _).
  destruct (Hkept _ (Htoggle "0" "B")) as (_ & _ & _ & Hset).
  apply Hset. by_evaluation.
Defined.

(** C5 as stated fails on an assignment in which one question has an
    explicit order and another has none: the first question, without an
    order, resolves to its position 0, and the second resolves to its order
    0, so the initial answers hold the identifier "0" twice.  It also fails
    for [setAnswer] with an identifier that no question has: the entry is
    appended, and the answers then hold an entry that belongs to no
    question. *)
Lemma mixed_order_ids_collide :
  let pick := mkQuestion "Pick" MULTIPLE_CHOICE (Some ["A"; "B"]) (Some (Multi ["A"])) 1 None in
  let a := mkAssignment "a1" "Quiz" "PUBLISHED"
             (Some [pick; mkQuestion "Why" ESSAY None None 1 (Some 0)]) in
  let b := mkAssignment "a2" "Poll" "PUBLISHED" (Some [pick]) in
  (question_ids a = ["0"; "0"] ∧
   initial a = [mkAnswerEntry "0" (Multi []); mkAnswerEntry "0" (Single "")] ∧
   ¬ NoDup (questionId <$> initial a) ∧
   ¬ one_entry_per_question a (initial a)) ∧
  (one_entry_per_question b (initial b) ∧
   setAnswer "7" (Single "x") (initial b)
     = [mkAnswerEntry "0" (Multi []); mkAnswerEntry "7" (Single "x")] ∧
   ¬ one_entry_per_question b (setAnswer "7" (Single "x") (initial b))).
Proof.
  intros pick a b.
  assert (question_ids a = ["0"; "0"]) as Hids by reflexivity.
  assert (¬ NoDup ["0"; "0"]) as Hdup.
  { intros [Hin _]%NoDup_cons. apply Hin. by left. }
  split; split_and!.
  - done.
  - reflexivity.
  - by rewrite initial_ids, Hids.
  - intros [Hnd _]. by rewrite Hids in Hnd.
  - split; [by_evaluation|]. by rewrite initial_ids.
  - reflexivity.
  - intros [_ Hperm]. apply Permutation_length in Hperm. discriminate.
Qed.

(** *** Drafts: what is written is what is read *)

Lemma answer_of_json_encode a : answer_of_json (json_of_answer a) = Some a.
Proof.
  destruct a as [s|l]; simpl; [done|].
  by rewrite (mapM_fmap_Some string_of_json JStr).
Qed.

Lemma entry_of_json_encode e : entry_of_json (json_of_entry e) = Some e.
Proof.
  destruct e as [q a]. unfold json_of_entry, entry_of_json.
  rewrite decide_True by done. cbn [answer]. by rewrite answer_of_json_encode.
Qed.

Lemma as_AnswerEntries_encode es : as_AnswerEntries (json_of_entry <$> es) = Some es.
Proof. apply mapM_fmap_Some, entry_of_json_encode. Qed.





(** The first branch of the load effect is taken on well-formed cached
    drafts and on nothing else. *)
Lemma draft_answers_cached ls key items :
  draft_answers (read_draft ls key) = Some items ↔ cached_draft ls key items.
Proof.
  unfold draft_answers, read_draft, cached_draft. split.
  - destruct (ls !! key) as [raw|] eqn:Hraw; [|done].
    destruct raw as [raw|v]; simpl.
    { by destruct (truthy_string raw). }
    destruct v as [|b|n|s|arr|fields]; simpl; try (by repeat case_match).
    destruct (assoc "answers" fields) as [[]|] eqn:Hans; try done.
    intros [= ->]. by exists (Encoded (JObj fields)), fields.
  - intros (raw & fields & -> & Hparse & Hans).
    destruct raw as [raw|v]; simpl in *; [done|].
    injection Hparse as ->. simpl. by rewrite Hans.
Qed.

Lemma autosave_client accepts w : client (autosave accepts w) = client w.
Proof.
  unfold autosave. destruct (assignment (client w)); [|done].
  by destruct (setItem _ _ _ _).
Qed.

(** A write that the browser refuses is swallowed. *)
Lemma autosave_refused w : autosave false w = w.
Proof. unfold autosave. by destruct (assignment (client w)). Qed.

Lemma autosave_written w a :
  assignment (client w) = Some a →
  localStorage (autosave true w)
  = <[LOCAL_STORAGE_KEY (client w) := JSON_stringify (json_of_draft (answers (client w)))]>
      (localStorage w).
Proof. intros Ha. unfold autosave. by rewrite Ha. Qed.

(** What the load effect adopts from a storage that holds the serialised
    answers [es] under [key]. *)
Lemma restore_written (ls : gmap string text) key es a prev :
  ls !! key = Some (JSON_stringify (json_of_draft es)) →
  draft_answers (read_draft ls key) ≫= as_AnswerEntries = Some es ∧
  restore ls key a prev = Some es.
Proof.
  intros Hkey.
  assert (draft_answers (read_draft ls key) = Some (json_of_entry <$> es)) as Hread.
  { apply draft_answers_cached.
    by exists (JSON_stringify (json_of_draft es)), [("answers", JArr (json_of_entry <$> es))]. }
  unfold restore. rewrite Hread. simpl. by rewrite as_AnswerEntries_encode.
Qed.

(** *** Loading: restore the cached draft or initialise *)

Lemma truthy_string_true s : truthy_string s = true ↔ s ≠ "".
Proof. unfold truthy_string. case_decide; naive_solver. Qed.

Lemma storage_key_Some id : id ≠ "" → storage_key (Some id) = "assignment_draft_" +:+ id.
Proof. intros H. unfold storage_key. by rewrite (proj2 (truthy_string_true id) H). Qed.

(** The load effect on a fetched assignment, while mounted. *)
Lemma load_effect_ok w id a h now accepts :
  assignmentId (client w) = Some id → id ≠ "" →
  load_effect (LoadOk a) true h now accepts w
  = (restored ← restore (localStorage w) ("assignment_draft_" +:+ id) a (answers (client w));
     Some (autosave accepts
       (with_intervals ({[ h ]} ∪ intervals w)
         (on_client (λ c, with_loading false (with_timerRef (Some h)
                       (with_startedAtRef now (with_answers restored
                         (with_assignment a (with_error None (with_loading true c)))))))
            w)))).
Proof.
  intros Hid Hne. unfold load_effect. rewrite Hid.
  rewrite (proj2 (truthy_string_true id) Hne). cbn.
  unfold LOCAL_STORAGE_KEY. cbn. rewrite Hid, storage_key_Some by done. done.
Qed.



(** *** Autosave *)

(** A [setAnswers] call whose updater returns a new array, in a component
    that has an assignment, on a browser that accepts the write. *)
Lemma setAnswers_fresh w a updater next :
  assignment (client w) = Some a →
  updater (answers (client w)) = Fresh next →
  answers (client (setAnswers true updater w)) = next ∧
  LOCAL_STORAGE_KEY (client (setAnswers true updater w)) = LOCAL_STORAGE_KEY (client w) ∧
  localStorage (setAnswers true updater w) !! LOCAL_STORAGE_KEY (client w)
    = Some (JSON_stringify (json_of_draft next)).
Proof.
  intros Ha Hnext. unfold setAnswers. rewrite Hnext.
  rewrite autosave_client. split_and!; [done..|].
  erewrite autosave_written by done. cbn. apply lookup_insert_eq.
Qed.

(** C3, as amended.  While an assignment is loaded and the browser accepts
    the write: after [setAnswer], and after a [toggleMulti] that finds an
    entry with the identifier, [localStorage] holds, under the key of the
    assignment identifier, the serialised [{ answers }] of the answers now
    in the state, and reading that key back, as the load effect does, gives
    these answers.  A [toggleMulti] that finds no entry writes nothing: the
    state and [localStorage] stay as they were. *)
Theorem autosave_follows_changed_answers (w : World) (a : Assignment) :
  assignment (client w) = Some a →
  let key := LOCAL_STORAGE_KEY (client w) in
  (∀ id value,
     let w' := call_setAnswer true id value w in
     answers (client w') = setAnswer id value (answers (client w)) ∧
     LOCAL_STORAGE_KEY (client w') = key ∧
     localStorage w' !! key = Some (JSON_stringify (json_of_draft (answers (client w')))) ∧
     draft_answers (read_draft (localStorage w') key) ≫= as_AnswerEntries
       = Some (answers (client w')) ∧
     ∀ a' prev, restore (localStorage w') key a' prev = Some (answers (client w'))) ∧
  (∀ id option,
     is_Some (findIndex (has_id id) (answers (client w))) →
     let w' := call_toggleMulti true id option w in
     answers (client w') = toggleMulti id option (answers (client w)) ∧
     LOCAL_STORAGE_KEY (client w') = key ∧
     localStorage w' !! key = Some (JSON_stringify (json_of_draft (answers (client w')))) ∧
     draft_answers (read_draft (localStorage w') key) ≫= as_AnswerEntries
       = Some (answers (client w')) ∧
     ∀ a' prev, restore (localStorage w') key a' prev = Some (answers (client w'))) ∧
  (∀ accepts id option,
     findIndex (has_id id) (answers (client w)) = None →
     call_toggleMulti accepts id option w = w).
Proof.
  intros Ha key. split_and!.
  - intros id value. cbv zeta. unfold call_setAnswer.
    destruct (setAnswers_fresh w a (setAnswer_updater id value)
                (setAnswer id value (answers (client w))) Ha) as (Hans & Hkey & Hls).
    { unfold setAnswer, setAnswer_updater. by case_match. }
    rewrite Hans. split_and!; [done..| |].
    + by apply (restore_written _ _ _ None []).
    + intros a' prev. by apply restore_written.
  - intros id option [idx Hidx]. cbv zeta. unfold call_toggleMulti.
    destruct (setAnswers_fresh w a (toggleMulti_updater id option)
                (toggleMulti id option (answers (client w))) Ha) as (Hans & Hkey & Hls).
    { unfold toggleMulti, toggleMulti_updater. by rewrite Hidx. }
    rewrite Hans. split_and!; [done..| |].
    + by apply (restore_written _ _ _ None []).
    + intros a' prev. by apply restore_written.
  - intros accepts id option Hnone. unfold call_toggleMulti, setAnswers, toggleMulti_updater.
    by rewrite Hnone.
Qed.

Lemma autosave_follows_changed_answers_witness :
  let a := mkAssignment "a1" "Quiz" "PUBLISHED"
             (Some [mkQuestion "Pick" MULTIPLE_CHOICE (Some ["A"; "B"]) (Some (Multi ["A"])) 1 None]) in
  let w := mkWorld (with_answers (initial a) (with_assignment (Some a) (mount (Some "a1"))))
                   ∅ ∅ in
  let w' := call_toggleMulti true "0" "B" w in
  answers (client w') = [mkAnswerEntry "0" (Multi ["B"])] ∧
  restore (localStorage w') "assignment_draft_a1" None [] = Some (answers (client w')).
Proof.
  intros a w w'.
  destruct (autosave_follows_changed_answers w a eq_refl) as (_ & Htoggle & _).
  destruct (Htoggle "0" "B") as (Hans & _ & _ & _ & Hrestore).
  - exists 0%nat. reflexivity.
  - split; [exact Hans | exact (Hrestore None [])].
Defined.

(** C3 as stated fails after a successful submission.  The stored draft
    has no entry (it was saved before the assignment had its question); the
    load effect adopts it; [handleSubmit] succeeds and removes the draft;
    the learner then ticks the option of the question, for which
    [toggleMulti] finds no entry and returns the array it was given.  No
    effect runs, so [localStorage] holds no draft, while the answers in the
    state are the empty array that reading the key no longer gives.  It
    also fails when the browser refuses the write: after [setAnswer] on
    freshly loaded answers the state holds the new answer and
    [localStorage] still the draft from before. *)
Lemma toggleMulti_without_entry_saves_nothing :
  let key := "assignment_draft_a1" in
  let a := mkAssignment "a1" "Quiz" "PUBLISHED"
             (Some [mkQuestion "Pick" MULTIPLE_CHOICE (Some ["A"; "B"]) (Some (Multi ["A"])) 1 None]) in
  let w0 := mkWorld (mount (Some "a1")) {[ key := JSON_stringify (json_of_draft []) ]} ∅ in
  match load_effect (LoadOk (Some a)) true 1%positive 0 true w0,
        load_effect (LoadOk (Some a)) true 1%positive 0 true (mkWorld (mount (Some "a1")) ∅ ∅)
  with
  | Some w1, Some v1 =>
      let w2 := (handleSubmit (λ _, Http 200 None) w1).1 in
      let w3 := call_toggleMulti true "0" "A" w2 in
      let v2 := call_setAnswer false "0" (Single "B") v1 in
      (localStorage w1 !! key = Some (JSON_stringify (json_of_draft [])) ∧
       localStorage w2 !! key = None ∧
       assignment (client w3) = Some a ∧
       answers (client w3) = [] ∧
       localStorage w3 !! key = None ∧
       draft_answers (read_draft (localStorage w3) key) ≫= as_AnswerEntries = None ∧
       draft_answers (read_draft (localStorage w3) key) ≫= as_AnswerEntries
         ≠ Some (answers (client w3)) ∧
       restore (localStorage w3) key (Some a) [] = Some [mkAnswerEntry "0" (Multi [])]) ∧
      (assignment (client v2) = Some a ∧
       answers (client v2) = [mkAnswerEntry "0" (Single "B")] ∧
       draft_answers (read_draft (localStorage v2) key) ≫= as_AnswerEntries
         = Some [mkAnswerEntry "0" (Multi [])])
  | _, _ => False
  end.
Proof. vm_compute. split; split_and!; (reflexivity || discriminate). Qed.

(** *** Submission *)




(** *** Discovery *)

Lemma elem_of_unique x xs : x ∈ unique xs ↔ x ∈ xs.
Proof.
  induction xs as [|y xs IH]; simpl; [done|].
  rewrite !elem_of_cons, list_elem_of_filter, IH.
  destruct (decide (x = y)); tauto.
Qed.

Lemma elem_of_List_filter {A} (f : A → bool) (l : list A) x :
  x ∈ List.filter f l ↔ f x = true ∧ x ∈ l.
Proof. rewrite !list_elem_of_In, filter_In. tauto. Qed.

Lemma enrolledCourseIds_spec u enrollments cid :
  cid ∈ enrolledCourseIds (JStr u) enrollments ↔ enrolled u enrollments cid.
Proof.
  unfold enrolledCourseIds, enrolled.
  rewrite elem_of_unique, elem_of_List_filter, truthy_string_true, list_elem_of_omap.
  split.
  - intros [Hne (e & [Hsame He]%elem_of_List_filter & Hcid)]. split; [done|].
    exists e. split_and!; [done| |done].
    unfold same_id in Hsame. destruct (ref_id (e_studentId e)) as [s|]; [|done].
    by apply bool_decide_eq_true in Hsame as ->.
  - intros [Hne (e & He & Hsid & Hcid)]. split; [done|].
    exists e. split; [|done]. apply elem_of_List_filter. split; [|done].
    unfold same_id. rewrite Hsid. by apply bool_decide_eq_true.
Qed.

Lemma matched_test u enrollments (a : IAssignment) :
  match ref_id (ia_courseId a) with
  | Some cid => truthy_string cid &&
                bool_decide (cid ∈ enrolledCourseIds (JStr u) enrollments)
  | None => false
  end = true ↔ of_enrolled_course u enrollments a.
Proof.
  unfold of_enrolled_course. destruct (ref_id (ia_courseId a)) as [cid|].
  2: { split; [done|]. by intros (cid & ? & _). }
  rewrite andb_true_iff, bool_decide_eq_true, enrolledCourseIds_spec, truthy_string_true.
  split.
  - intros [_ H]. eauto.
  - intros (cid' & [= <-] & H). split; [by destruct H|done].
Qed.

(** [filter(p)[0]] is the first element that satisfies [p]. *)
Lemma List_filter_first {A} (f : A → bool) (pre post : list A) x :
  Forall (λ y, f y ≠ true) pre → f x = true →
  List.filter f (pre ++ x :: post) = x :: List.filter f post.
Proof.
  intros Hpre Hx. induction Hpre as [|y pre Hy _ IH]; simpl.
  - by rewrite Hx.
  - by destruct (f y).
Qed.

Lemma List_filter_none {A} (f : A → bool) (l : list A) :
  Forall (λ y, f y ≠ true) l → List.filter f l = [].
Proof.
  induction 1 as [|y l Hy _ IH]; simpl; [done|]. by destruct (f y).
Qed.

Lemma read_userId_cached ls u :
  cached_user ls u → read_userId ls = Some (Some (JStr u)).
Proof.
  intros (raw & fields & Hraw & Hparse & Hid & _). unfold read_userId. rewrite Hraw.
  destruct raw as [raw|v]; [done|]. simpl in *. injection Hparse as ->. simpl.
  by rewrite Hid.
Qed.

Lemma read_userId_inv ls u :
  read_userId ls = Some (Some (JStr u)) → u ≠ "" → cached_user ls u.
Proof.
  unfold read_userId. intros Hread Hne.
  destruct (ls !! "user") as [dd|] eqn:Hdd; [|done].
  destruct (truthy_text dd); [|done].
  destruct dd as [raw|ee]; [done|]. simpl in Hread.
  destruct ee as [| | | | |fields]; try done. simpl in Hread.
  exists (Encoded (JObj fields)), fields. split_and!; [done|done| |done]. congruence.
Qed.

(** Without the record of a user nothing is resolved. *)
Lemma discover_without_user ls enrollRes assignRes :
  (∀ u, ¬ cached_user ls u) →
  (discoverAssignmentForUser ls enrollRes assignRes).1 = None.
Proof.
  intros Hnone. unfold discoverAssignmentForUser.
  destruct (read_userId ls) as [[userId|]|] eqn:Hread; [|done..].
  destruct (truthy userId) eqn:Htruthy; [|done].
  destruct enrollRes as [|data]; [done|].
  assert (enrolledCourseIds userId (default [] data) = []) as ->; [|done].
  unfold enrolledCourseIds.
  rewrite (List_filter_none _ (default [] data)); [done|].
  apply Forall_forall. intros e _. unfold same_id.
  destruct (ref_id (e_studentId e)) as [s|]; [|done].
  destruct userId as [| | |u| |]; try done.
  destruct (Hnone u). apply read_userId_inv; [done|]. by apply truthy_string_true.
Qed.

(** C8.  With a route identifier the discovery effect does nothing: the
    identifier stays and nothing is fetched.  Without one: when
    [localStorage] holds nothing under [user], nothing is fetched, and
    whenever it holds no user record no assignment is resolved; when it
    holds the record of the user [u], both lists are fetched and the
    component is still mounted, the identifier becomes that of the first
    assignment of the fetched list whose course is one in which [u] is
    enrolled, and nothing is resolved when the list has no such
    assignment.  A component that is no longer mounted keeps its state. *)
Theorem discovery_resolves_first_enrolled
    (enrollRes : Fetched (list IEnrollment)) (assignRes : Fetched (list IAssignment))
    (mounted : bool) (w : World) :
  (∀ id, assignmentId (client w) = Some id → id ≠ "" →
     discovery_effect enrollRes assignRes mounted w = (w, [])) ∧
  (assignmentId (client w) = None ∨ assignmentId (client w) = Some "" →
     (localStorage w !! "user" = None →
        discovery_effect enrollRes assignRes mounted w = (w, [])) ∧
     ((∀ u, ¬ cached_user (localStorage w) u) →
        (discovery_effect enrollRes assignRes mounted w).1 = w) ∧
     (∀ u enrollments allAssignments,
        cached_user (localStorage w) u →
        enrollRes = Resolved (Some enrollments) →
        assignRes = Resolved (Some allAssignments) →
        (∀ pre first post,
           allAssignments = pre ++ first :: post →
           Forall (λ b, ¬ of_enrolled_course u enrollments b) pre →
           of_enrolled_course u enrollments first →
           (discovery_effect enrollRes assignRes true w).1
             = on_client (with_assignmentId (Some (ia_id first))) w ∧
           (discovery_effect enrollRes assignRes false w).1 = w) ∧
        (Forall (λ b, ¬ of_enrolled_course u enrollments b) allAssignments →
           (discovery_effect enrollRes assignRes mounted w).1 = w))).
Proof.
  split.
  - intros id Hid Hne. unfold discovery_effect. rewrite Hid.
    by rewrite (proj2 (truthy_string_true id) Hne).
  - intros Hnone.
    assert (∀ m, discovery_effect enrollRes assignRes m w
                 = match discoverAssignmentForUser (localStorage w) enrollRes assignRes with
                   | (Some id, fetched) =>
                       (if m then on_client (with_assignmentId (Some id)) w else w, fetched)
                   | (None, fetched) => (w, fetched)
                   end) as Heffect.
    { intros m. unfold discovery_effect. by destruct Hnone as [-> | ->]. }
    split_and!.
    + intros Huser. rewrite Heffect. unfold discoverAssignmentForUser, read_userId.
      by rewrite Huser.
    + intros Hnobody. rewrite Heffect.
      pose proof (discover_without_user _ enrollRes assignRes Hnobody) as Hmissed.
      by destruct (discoverAssignmentForUser _ _ _) as [[id|] fetched].
    + intros u enrollments allAssignments Hu -> ->.
      assert (∀ l, List.filter (λ a, match ref_id (ia_courseId a) with
                       | Some cid => truthy_string cid &&
                           bool_decide (cid ∈ enrolledCourseIds (JStr u) enrollments)
                       | None => false
                       end) l = matched (enrolledCourseIds (JStr u) enrollments) l)
        as Hmatched by done.
      assert (truthy (JStr u) = true) as Htruthy.
      { destruct Hu as (_ & _ & _ & _ & _ & Hne). by apply truthy_string_true. }
      split.
      * intros pre first post -> Hpre Hfirst.
        assert (discoverAssignmentForUser (localStorage w)
                  (Resolved (Some enrollments)) (Resolved (Some (pre ++ first :: post)))
                = (Some (ia_id first), ["/api/enrollments/my"; "/api/assignments"]))
          as Hfound.
        { unfold discoverAssignmentForUser.
          rewrite (read_userId_cached _ u Hu), Htruthy. cbn [default from_option id].
          rewrite decide_False.
          - rewrite <- Hmatched, (List_filter_first _ pre post first); [done| |].
            + eapply Forall_impl; [exact Hpre|]. intros b Hb Htest.
              by apply Hb, (matched_test u enrollments b).
            + by apply (matched_test u enrollments first).
          - destruct Hfirst as (cid & _ & Hcid%enrolledCourseIds_spec).
            intros Hlen%nil_length_inv. rewrite Hlen in Hcid.
            by apply not_elem_of_nil in Hcid. }
        by rewrite !Heffect, Hfound.
      * intros Hall. rewrite Heffect.
        assert ((discoverAssignmentForUser (localStorage w)
                   (Resolved (Some enrollments)) (Resolved (Some allAssignments))).1 = None)
          as Hmissed.
        { unfold discoverAssignmentForUser.
          rewrite (read_userId_cached _ u Hu), Htruthy. cbn [default from_option id].
          case_decide; [done|].
          rewrite <- Hmatched, List_filter_none; [done|].
          eapply Forall_impl; [exact Hall|]. intros b Hb Htest.
          by apply Hb, (matched_test u enrollments b). }
        destruct (discoverAssignmentForUser _ _ _) as [[id|] fetched]; [done|done].
Qed.

Lemma discovery_resolves_first_enrolled_witness :
  let w := mkWorld (mount None)
             {[ "user" := JSON_stringify (JObj [("_id", JStr "u1")]) ]} ∅ in
  let enrollments := [mkIEnrollment "e1" (ById "u9") (ById "c1");
                      mkIEnrollment "e2" (ById "u1") (Embedded (Some "c2"))] in
  let allAssignments := [mkIAssignment "a1" (ById "c1") "Algebra";
                         mkIAssignment "a2" (Embedded (Some "c2")) "Botany";
                         mkIAssignment "a3" (ById "c2") "Botany, again"] in
  assignmentId (client (discovery_effect (Resolved (Some enrollments))
                          (Resolved (Some allAssignments)) true w).1) = Some "a2".
Proof.
  intros w enrollments allAssignments.
  destruct (discovery_resolves_first_enrolled (Resolved (Some enrollments))
              (Resolved (Some allAssignments)) true w) as [_ H].
  destruct (H (or_introl eq_refl)) as (_ & _ & Hcached).
  destruct (Hcached "u1" enrollments allAssignments) as [Hfirst _];
    [|reflexivity|reflexivity|].
  { exists (JSON_stringify (JObj [("_id", JStr "u1")])), [("_id", JStr "u1")].
    split_and!; [reflexivity..|discriminate]. }
  destruct (Hfirst [mkIAssignment "a1" (ById "c1") "Algebra"]
              (mkIAssignment "a2" (Embedded (Some "c2")) "Botany")
              [mkIAssignment "a3" (ById "c2") "Botany, again"] eq_refl) as [Hres _].
  - constructor; [|constructor]. intros Hin%matched_test. vm_compute in Hin. discriminate.
  - apply matched_test. vm_compute. reflexivity.
  - rewrite Hres. reflexivity.
Defined.

End TakingProofs.

(** ** The review list: filter, pages and grades *)

Section List_filter.
Context {A : Type}.
Implicit Types (f g : A → bool) (l : list A).


Lemma List_filter_and f g l :
  List.filter g (List.filter f l) = List.filter (λ x, f x && g x) l.
Proof.
  induction l as [|x l IH]; simpl; [done|].
  destruct (f x); simpl; [destruct (g x)|]; by rewrite IH.
Qed.

Lemma List_filter_all f l : (∀ x, f x = true) → List.filter f l = l.
Proof. intros Hf. induction l as [|x l IH]; simpl; [done|]. by rewrite Hf, IH. Qed.


End List_filter.


(** [slice] from a position that is not negative. *)
Lemma slice_from {A} (l : list A) (start n : Z) :
  0 ≤ start → 0 ≤ n →
  slice l start (start + n) = take (Z.to_nat n) (drop (Z.to_nat start) l).
Proof.
  intros Hstart Hn. unfold slice, slice_index.
  destruct (Z.ltb_spec start 0) as [?|_]; [lia|].
  destruct (Z.ltb_spec (start + n) 0) as [?|_]; [lia|].
  destruct (decide (Z.of_nat (length l) ≤ start)) as [Hout|Hin].
  - rewrite !drop_ge by lia. by rewrite !take_nil.
  - replace (Z.to_nat (Z.min start (Z.of_nat (length l)))) with (Z.to_nat start) by lia.
    destruct (decide (start + n ≤ Z.of_nat (length l))) as [Hfull|Hshort].
    + f_equal. lia.
    + rewrite !take_ge; [done|rewrite length_drop; lia..].
Qed.


Module ReviewProofs.
Import Review ReviewSpec.

(** *** The filter, in the words of the specification *)

Lemma search_hit_contains q s :
  search_hit (toLowerCase q) s
  = contains_ci (student_name s) q || contains_ci (student_email s) q
    || contains_ci (nullish (assignmentId s) "") q.
Proof.
  unfold search_hit, contains_ci, name_of, email_of, aid_of, student_name, student_email.
  destruct (studentId s) as [st|]; simpl; [|done].
  by destruct (email st).
Qed.

Lemma filteredList_kept st : filteredList st = List.filter (kept st) (submissions st).
Proof.
  unfold filteredList, kept.
  destruct (String.eqb (filterStatus st) "ALL"); simpl;
    destruct (truthy_string (trim (search st))); simpl.
  - apply filter_ext. intros s. apply search_hit_contains.
  - by rewrite List_filter_all.
  - rewrite List_filter_and. apply filter_ext. intros s. by rewrite search_hit_contains.
  - apply filter_ext. intros s. by rewrite andb_true_r.
Qed.


Lemma totalPages_covers st : totalFiltered st ≤ totalPages st * PAGE_SIZE ∧ 1 ≤ totalPages st.
Proof.
  unfold totalPages, ceil_div, PAGE_SIZE.
  pose proof (Z.div_mod (- totalFiltered st) 12) as Hdiv.
  pose proof (Z.mod_pos_bound (- totalFiltered st) 12) as Hmod. lia.
Qed.



(** The scenario of the specification: the search text "alice" finds a
    submission by its email, whatever the case of the name. *)
Example search_alice :
  let alice := mkSubmission "s1" (Some "a1")
                 (Some (mkStudentRef "u1" (Some "ALICIA") None (Some "Alice@Example.com") None))
                 "SUBMITTED" Undefined 1 "2024-01-01" None None in
  let bob := mkSubmission "s2" (Some "a1")
               (Some (mkStudentRef "u2" (Some "Bob") None (Some "bob@example.com") None))
               "SUBMITTED" Undefined 1 "2024-01-02" None None in
  filteredList (mkState false false None [bob; alice] None None false "ALL" " alice " 1)
  = [alice].
Proof. reflexivity. Qed.

(** *** Grading *)





(** The scenario of the specification, to its end: the grade 85 with the
    feedback "Good work" goes out with the status ["GRADED"], in capitals,
    and once the rows and the detail view are patched the success path
    calls [closeDetail], after which no submission is selected. *)
Lemma saveGrade_closes_detail_view :
  let sel := mkSubmission "s2" (Some "a1") None "SUBMITTED" Null 1 "2024-01-01" None None in
  let g := mkGrading (Some 85) (Some "Good work") in
  let st := mkState false false None [sel] (Some sel) (Some g) false "ALL" "" 1 in
  let saved := saveGrade (λ _, Http 200 None) st in
  selected st = Some sel ∧
  selected saved.1 = None ∧ grading saved.1 = None ∧
  selected saved.1 ≠ Some (graded g sel) ∧
  (body <$> saved.2)
    = [Some (JObj [("score", JNum 85); ("status", JStr "GRADED");
                   ("feedback", JStr "Good work")])] ∧
  JStr "GRADED" ≠ JStr "graded".
Proof. cbv zeta. split_and!; (reflexivity || discriminate). Qed.



(** The same with a cleared score: the row has the status ["GRADED"] and
    its previous score, and the detail view is closed in the end. *)
Lemma cleared_score_closes_detail_view :
  let sel := mkSubmission "s2" (Some "a1") None "SUBMITTED" (Num 70) 1 "2024-01-01" None None in
  let st := openDetail sel
              (mkState false false None [sel] None None false "ALL" "" 1) in
  let cleared := onChangeScore (λ _, 0) "" st in
  let saved := (saveGrade (λ _, Http 200 None) cleared).1 in
  selected cleared = Some sel ∧
  (status <$> submissions saved) = ["GRADED"] ∧
  (score <$> submissions saved) = [Num 70] ∧
  selected saved = None ∧
  (status <$> selected saved) ≠ Some "GRADED".
Proof. cbv zeta. split_and!; (reflexivity || discriminate). Qed.

End ReviewProofs.

(** * Further properties of the assignment-taking component *)

Section findIndex_more.
Context {A : Type} (P : A → Prop) `{!∀ x, Decision (P x)}.
Implicit Types l : list A.

(** An update in place that neither makes nor breaks a match leaves the
    position of the first match where it was. *)
Lemma findIndex_alter_iff (f : A → A) l i :
  (∀ x, l !! i = Some x → (P (f x) ↔ P x)) →
  findIndex P (alter f i l) = findIndex P l.
Proof.
  intros Hf.
  destruct (findIndex P l) as [j|] eqn:Hfind.
  - apply findIndex_Some in Hfind as (x & Hx & HP & Hfirst).
    apply findIndex_Some. destruct (decide (i = j)) as [->|Hne].
    + exists (f x). split_and!.
      * by rewrite list_lookup_alter_eq, Hx.
      * by apply Hf.
      * intros k y Hy Hlt. rewrite list_lookup_alter_ne in Hy by lia. eauto.
    + exists x. split_and!; [by rewrite list_lookup_alter_ne|done|].
      intros k y Hy Hlt. destruct (decide (i = k)) as [->|Hne'].
      * rewrite list_lookup_alter_eq in Hy.
        destruct (l !! k) as [z|] eqn:Hz; [|done]. injection Hy as <-.
        rewrite Hf by done. eauto.
      * rewrite list_lookup_alter_ne in Hy by done. eauto.
  - apply findIndex_None in Hfind. apply findIndex_None.
    rewrite Forall_forall in *. intros y [k Hy]%list_elem_of_lookup.
    destruct (decide (i = k)) as [->|Hne].
    + rewrite list_lookup_alter_eq in Hy.
      destruct (l !! k) as [z|] eqn:Hz; [|done]. injection Hy as <-.
      rewrite Hf by done. apply Hfind. by eapply list_elem_of_lookup_2.
    + rewrite list_lookup_alter_ne in Hy by done.
      apply Hfind. by eapply list_elem_of_lookup_2.
Qed.

(** The first match in an array that had none and was given one at its end. *)
Lemma findIndex_pushed l x :
  findIndex P l = None → P x → findIndex P (l ++ [x]) = Some (length l).
Proof.
  intros Hnone%findIndex_None Hx. rewrite Forall_forall in Hnone.
  apply findIndex_Some. exists x. split_and!.
  - by rewrite lookup_app_r, Nat.sub_diag.
  - done.
  - intros j y Hy Hlt. rewrite lookup_app_l in Hy by done.
    apply Hnone. by eapply list_elem_of_lookup_2.
Qed.

Lemma findIndex_pushed_other l x :
  ¬ P x → findIndex P (l ++ [x]) = findIndex P l.
Proof.
  intros Hx. destruct (findIndex P l) as [j|] eqn:Hfind.
  - apply findIndex_Some in Hfind as (y & Hy & HP & Hfirst).
    apply findIndex_Some. exists y.
    assert (j < length l)%nat by (by eapply lookup_lt_Some).
    split_and!; [by rewrite lookup_app_l|done|].
    intros k z Hz Hlt. rewrite lookup_app_l in Hz by lia. eauto.
  - apply findIndex_None in Hfind. apply findIndex_None.
    apply Forall_app. split; [done|]. by repeat constructor.
Qed.

End findIndex_more.

Module TakingFacts.
Import Taking TakingSpec TakingProofs.

(** *** Reading an answer back *)

(** [find] returns the element at the position that [findIndex] returns. *)
Lemma entry_for_findIndex id (answers : list AnswerEntry) :
  entry_for id answers = findIndex (has_id id) answers ≫= λ i, answers !! i.
Proof.
  unfold entry_for, findIndex.
  destruct (list_find (has_id id) answers) as [[i x]|] eqn:Hfind; [|done].
  apply list_find_Some in Hfind as (Hx & _). cbn. by rewrite Hx.
Qed.

Lemma entry_for_has_id id (answers : list AnswerEntry) entry :
  entry_for id answers = Some entry → questionId entry = id.
Proof.
  unfold entry_for. intros [[i x] [Hfind ->]]%fmap_Some.
  by apply list_find_Some in Hfind as (_ & Hid & _).
Qed.

(** Rewriting the answer of the first entry of [id] is seen by a search
    for [id] and by no search for another identifier. *)
Lemma entry_for_alter_same id value (answers : list AnswerEntry) idx :
  findIndex (has_id id) answers = Some idx →
  entry_for id (alter (with_answer value) idx answers)
  = with_answer value <$> answers !! idx.
Proof.
  intros Hidx. rewrite entry_for_findIndex, (findIndex_alter _ _ _ idx) by done.
  cbn. apply list_lookup_alter_eq.
Qed.

Lemma entry_for_alter_other id id' (f : AnswerEntry → AnswerEntry)
    (answers : list AnswerEntry) idx :
  id' ≠ id → findIndex (has_id id) answers = Some idx →
  (∀ x, questionId (f x) = questionId x) →
  entry_for id' (alter f idx answers) = entry_for id' answers.
Proof.
  intros Hne Hidx Hf. rewrite !entry_for_findIndex.
  rewrite findIndex_alter_iff by (intros x _; unfold has_id; by rewrite Hf).
  destruct (findIndex (has_id id') answers) as [j|] eqn:Hj; [|done]. cbn.
  apply list_lookup_alter_ne. intros <-.
  apply findIndex_Some in Hidx as (x & Hx & Hid & _).
  apply findIndex_Some in Hj as (y & Hy & Hid' & _).
  unfold has_id in *. congruence.
Qed.

Lemma entry_for_pushed id value (answers : list AnswerEntry) :
  findIndex (has_id id) answers = None →
  entry_for id (answers ++ [mkAnswerEntry id value]) = Some (mkAnswerEntry id value).
Proof.
  intros Hnone. rewrite entry_for_findIndex, findIndex_pushed by done.
  cbn. by rewrite lookup_app_r, Nat.sub_diag.
Qed.

Lemma entry_for_pushed_other id id' value (answers : list AnswerEntry) :
  id' ≠ id →
  entry_for id' (answers ++ [mkAnswerEntry id value]) = entry_for id' answers.
Proof.
  intros Hne. rewrite !entry_for_findIndex.
  rewrite findIndex_pushed_other by (unfold has_id; cbn; congruence).
  destruct (findIndex (has_id id') answers) as [j|] eqn:Hj; [|done]. cbn.
  apply lookup_app_l. apply findIndex_lookup in Hj as [x Hx]. by eapply lookup_lt_Some.
Qed.

(** X1.  What [setAnswer] writes is what is read: after
    [setAnswer(id, value)] the search that [renderQuestion] makes for [id]
    finds an entry whose answer is [value], whether the entry was there or
    had to be appended, so that a question with this identifier shows
    [value]; the search for any other identifier finds what it found
    before, so that every other question shows what it showed. *)
Theorem setAnswer_read_back (prev : list AnswerEntry) (id : string) (value : Answer) :
  answer <$> entry_for id (setAnswer id value prev) = Some value ∧
  (∀ id', id' ≠ id → entry_for id' (setAnswer id value prev) = entry_for id' prev) ∧
  (∀ q idx, qId q idx = id → val q idx (setAnswer id value prev) = value) ∧
  (∀ q idx, qId q idx ≠ id → val q idx (setAnswer id value prev) = val q idx prev).
Proof.
  assert (answer <$> entry_for id (setAnswer id value prev) = Some value) as Hsame.
  { destruct (findIndex (has_id id) prev) as [idx|] eqn:Hidx.
    - rewrite (setAnswer_found _ _ _ idx), entry_for_alter_same by done.
      destruct (findIndex_lookup _ _ _ Hidx) as [e He]. by rewrite He.
    - by rewrite setAnswer_missing, entry_for_pushed. }
  assert (∀ id', id' ≠ id → entry_for id' (setAnswer id value prev) = entry_for id' prev)
    as Hother.
  { intros id' Hne. destruct (findIndex (has_id id) prev) as [idx|] eqn:Hidx.
    - rewrite (setAnswer_found _ _ _ idx) by done. by apply (entry_for_alter_other id).
    - rewrite setAnswer_missing by done. by apply entry_for_pushed_other. }
  split_and!; [done..| |].
  - intros q idx <-. unfold val.
    destruct (entry_for _ (setAnswer _ _ _)) as [e|]; [|done]. by injection Hsame.
  - intros q idx Hne. unfold val. by rewrite Hother.
Qed.

Lemma setAnswer_read_back_witness :
  let prev := [mkAnswerEntry "0" (Single "a")] in
  entry_for "0" (setAnswer "7" (Single "x") prev) = Some (mkAnswerEntry "0" (Single "a")) ∧
  answer <$> entry_for "7" (setAnswer "7" (Single "x") prev) = Some (Single "x").
Proof.
  intros prev.
  destruct (setAnswer_read_back prev "7" (Single "x")) as (Hsame & Hother & _).
  split; [|exact Hsame]. rewrite (Hother "0") by discriminate. reflexivity.
Defined.

(** X2.  The last [setAnswer] for an identifier wins: two calls for the
    same identifier leave what the second call alone leaves, so that a
    repeated call changes nothing more.  A call keeps the length of the
    array when an entry has the identifier and makes it one longer when
    none has; and calls for two different identifiers that both have an
    entry can be made in either order. *)
Theorem setAnswer_last_write_wins (prev : list AnswerEntry) (id : string)
    (first second : Answer) :
  setAnswer id second (setAnswer id first prev) = setAnswer id second prev ∧
  setAnswer id second (setAnswer id second prev) = setAnswer id second prev ∧
  length (setAnswer id second prev)
    = (length prev + match findIndex (has_id id) prev with Some _ => 0 | None => 1 end)%nat ∧
  (∀ id', id' ≠ id →
     is_Some (findIndex (has_id id) prev) → is_Some (findIndex (has_id id') prev) →
     setAnswer id first (setAnswer id' second prev)
     = setAnswer id' second (setAnswer id first prev)).
Proof.
  assert (∀ a b, setAnswer id b (setAnswer id a prev) = setAnswer id b prev) as Hwins.
  { intros a b. destruct (findIndex (has_id id) prev) as [idx|] eqn:Hidx.
    - rewrite (setAnswer_found _ a _ idx), (setAnswer_found _ b prev idx) by done.
      rewrite (setAnswer_found _ b _ idx) by (by apply findIndex_alter).
      rewrite list_alter_alter_eq. by apply list_alter_ext.
    - rewrite (setAnswer_missing _ a), (setAnswer_missing _ b prev) by done.
      rewrite (setAnswer_found _ b _ (length prev)) by (by apply findIndex_pushed).
      replace (length prev) with (length prev + 0)%nat at 1 by lia.
      by rewrite alter_app_r. }
  split_and!; [apply Hwins | apply Hwins | |].
  - destruct (findIndex (has_id id) prev) as [idx|] eqn:Hidx.
    + rewrite (setAnswer_found _ _ _ idx), length_alter by done. lia.
    + rewrite setAnswer_missing, length_app by done. simpl. lia.
  - intros id' Hne [i Hi] [j Hj].
    assert (i ≠ j) as Hij.
    { intros ->. apply findIndex_Some in Hi as (x & Hx & Hid & _).
      apply findIndex_Some in Hj as (y & Hy & Hid' & _). unfold has_id in *. congruence. }
    rewrite (setAnswer_found _ _ prev j), (setAnswer_found _ _ prev i) by done.
    rewrite (setAnswer_found id _ _ i), (setAnswer_found id' _ _ j).
    + by apply list_alter_alter_ne.
    + rewrite findIndex_alter_iff; [done|]. intros x _. by unfold has_id.
    + rewrite findIndex_alter_iff; [done|]. intros x _. by unfold has_id.
Qed.

Lemma setAnswer_last_write_wins_witness :
  let prev := [mkAnswerEntry "0" (Single "a"); mkAnswerEntry "1" (Single "b")] in
  setAnswer "0" (Single "x") (setAnswer "1" (Single "y") prev)
  = setAnswer "1" (Single "y") (setAnswer "0" (Single "x") prev).
Proof.
  intros prev.
  destruct (setAnswer_last_write_wins prev "0" (Single "x") (Single "y"))
    as (_ & _ & _ & Hswap).
  apply (Hswap "1"); [discriminate | by exists 0%nat | by exists 1%nat].
Defined.

(** X3.  Ticking the box of an option flips that box and no other: when
    the entry that a question reads holds no option twice, after
    [toggleMulti] with the identifier of the question the box of the option
    is checked exactly when it was not, every other box of the question is
    as before, and so is what every question with another identifier
    shows.  When no entry has the identifier of the question the click
    changes nothing: the question shows what it showed. *)
Theorem checkbox_click_flips_one_box (prev : list AnswerEntry) (q : Question)
    (idx : nat) (option : string) :
  let after := toggleMulti (qId q idx) option prev in
  (∀ entry, entry_for (qId q idx) prev = Some entry → NoDup (current entry) →
     checkbox_checked (val q idx after) option
       = negb (checkbox_checked (val q idx prev) option) ∧
     ∀ other, other ≠ option →
       checkbox_checked (val q idx after) other = checkbox_checked (val q idx prev) other) ∧
  (entry_for (qId q idx) prev = None → val q idx after = val q idx prev) ∧
  (∀ q' idx', qId q' idx' ≠ qId q idx → val q' idx' after = val q' idx' prev).
Proof.
  cbv zeta. split_and!.
  - intros entry Hentry Hnd.
    pose proof Hentry as Hfind. rewrite entry_for_findIndex in Hfind.
    destruct (findIndex (has_id (qId q idx)) prev) as [i|] eqn:Hi; [|done]. cbn in Hfind.
    assert (val q idx (toggleMulti (qId q idx) option prev)
            = Multi (toggled (current entry) option)) as ->.
    { unfold val. rewrite (toggleMulti_found _ _ _ i) by done.
      rewrite entry_for_findIndex, (findIndex_alter _ _ _ i) by done. cbn.
      by rewrite list_lookup_alter_eq, Hfind. }
    assert (∀ o, checkbox_checked (val q idx prev) o = bool_decide (o ∈ current entry))
      as Hbefore.
    { intros o. unfold val, current. rewrite Hentry.
      destruct (answer entry) as [s|l]; [|done]. cbn. symmetry.
      apply bool_decide_eq_false. apply not_elem_of_nil. }
    rewrite !Hbefore. cbn. split.
    + destruct (decide (option ∈ current entry)) as [Hin|Hout].
      * rewrite (bool_decide_eq_true_2 (option ∈ current entry)) by done.
        apply bool_decide_eq_false. rewrite (toggled_elem _ _ _ Hnd), decide_True by done.
        by intros [_ ?].
      * rewrite (bool_decide_eq_false_2 (option ∈ current entry)) by done.
        apply bool_decide_eq_true. rewrite (toggled_elem _ _ _ Hnd), decide_False by done.
        by right.
    + intros other Hne. rewrite Hbefore. apply bool_decide_ext.
      rewrite (toggled_elem _ _ _ Hnd). case_decide; tauto.
  - intros Hnone. rewrite entry_for_findIndex in Hnone.
    destruct (findIndex (has_id (qId q idx)) prev) as [i|] eqn:Hi.
    + destruct (findIndex_lookup _ _ _ Hi) as [e He]. cbn in Hnone. congruence.
    + by rewrite (proj2 (toggleMulti_missing _ option _ Hi)).
  - intros q' idx' Hne. unfold val.
    destruct (findIndex (has_id (qId q idx)) prev) as [i|] eqn:Hi.
    + rewrite (toggleMulti_found _ _ _ i) by done.
      by rewrite (entry_for_alter_other (qId q idx)).
    + by rewrite (proj2 (toggleMulti_missing _ option _ Hi)).
Qed.

Lemma checkbox_click_flips_one_box_witness :
  let q := mkQuestion "Pick" MULTIPLE_CHOICE (Some ["A"; "B"]) (Some (Multi ["A"])) 1 None in
  let prev := [mkAnswerEntry "0" (Multi ["B"])] in
  checkbox_checked (val q 0 (toggleMulti "0" "A" prev)) "A" = true ∧
  checkbox_checked (val q 0 (toggleMulti "0" "A" prev)) "B" = true.
Proof.
  intros q prev.
  destruct (checkbox_click_flips_one_box prev q 0%nat "A") as (Hflip & _ & _).
  destruct (Hflip (mkAnswerEntry "0" (Multi ["B"])) eq_refl) as [Hthis Hothers].
  - by_evaluation.
  - split; [exact Hthis|]. exact (Hothers "B" ltac:(discriminate)).
Defined.

(** *** Drafts *)


(** The only key of [localStorage] that the autosave effect writes. *)
Lemma autosave_other_keys accepts w k :
  k ≠ LOCAL_STORAGE_KEY (client w) →
  localStorage (autosave accepts w) !! k = localStorage w !! k.
Proof.
  intros Hk. unfold autosave. destruct (assignment (client w)); [|done].
  destruct accepts; [|done]. cbn. by rewrite lookup_insert_ne.
Qed.

Lemma setAnswers_other_keys accepts updater w k :
  k ≠ LOCAL_STORAGE_KEY (client w) →
  localStorage (setAnswers accepts updater w) !! k = localStorage w !! k.
Proof.
  intros Hk. unfold setAnswers. destruct (updater _); [done|].
  by rewrite autosave_other_keys.
Qed.

(** X5.  The component touches [localStorage] under its own key only:
    whatever [setAnswer], [toggleMulti], the load effect and [handleSubmit]
    do, the text under any other key, such as the record of the user or
    the draft of another assignment, is the one from before; and the
    discovery writes nothing at all. *)
Theorem storage_touched_at_own_key_only (w : World) (k : string) :
  k ≠ LOCAL_STORAGE_KEY (client w) →
  (∀ accepts id value,
     localStorage (call_setAnswer accepts id value w) !! k = localStorage w !! k) ∧
  (∀ accepts id option,
     localStorage (call_toggleMulti accepts id option w) !! k = localStorage w !! k) ∧
  (∀ outcome mounted h now accepts w',
     load_effect outcome mounted h now accepts w = Some w' →
     localStorage w' !! k = localStorage w !! k) ∧
  (∀ fetch, localStorage (handleSubmit fetch w).1 !! k = localStorage w !! k) ∧
  (∀ enrollRes assignRes mounted,
     localStorage (discovery_effect enrollRes assignRes mounted w).1 = localStorage w).
Proof.
  intros Hk. split_and!.
  - intros. by apply setAnswers_other_keys.
  - intros. by apply setAnswers_other_keys.
  - intros outcome mounted h now accepts w'. unfold load_effect.
    destruct (assignmentId (client w)) as [id|] eqn:Hid; [|by intros [= <-]].
    destruct (truthy_string id); [|by intros [= <-]].
    destruct mounted; [|by intros [= <-]].
    destruct outcome as [msg|a]; [by intros [= <-]|].
    destruct (restore _ _ _ _) as [restored|]; [|done]. cbn [mbind option_bind].
    intros [= <-]. rewrite autosave_other_keys; [done | exact Hk].
  - intros fetch. unfold handleSubmit.
    destruct (assignmentId (client w)) as [id|]; [|done].
    destruct (truthy_string id); [|done]. cbn [fst].
    destruct (fetch _) as [msg|status body]; [done|].
    destruct (ok status); [|done]. unfold stop_timer. cbn.
    destruct (timerRef (client w)); cbn; by rewrite lookup_delete_ne.
  - intros enrollRes assignRes mounted. unfold discovery_effect.
    repeat case_match; done.
Qed.

Lemma storage_touched_at_own_key_only_witness :
  let a := mkAssignment "a1" "Quiz" "PUBLISHED" None in
  let w := mkWorld (with_assignment (Some a) (mount (Some "a1")))
             {[ "user" := Unparsable "me" ]} ∅ in
  localStorage (call_setAnswer true "0" (Single "x") w) !! "user" = Some (Unparsable "me").
Proof.
  intros a w.
  destruct (storage_touched_at_own_key_only w "user") as (Hset & _); [discriminate|].
  rewrite Hset. reflexivity.
Defined.

(** X6.  Different assignments have different draft keys, and no draft
    key is the key of the user record: for identifiers that are not empty
    the key determines the identifier. *)
Theorem draft_keys_are_separate (a b : string) :
  a ≠ "" → b ≠ "" →
  (storage_key (Some a) = storage_key (Some b) → a = b) ∧
  (∀ o, storage_key o ≠ "user").
Proof.
  intros Ha Hb. split.
  - rewrite !storage_key_Some by done. apply (inj (String.app _)).
  - intros [id|]; unfold storage_key; [|discriminate].
    destruct (truthy_string id); discriminate.
Qed.

Lemma draft_keys_are_separate_witness :
  storage_key (Some "a1") ≠ storage_key (Some "a2") ∧ storage_key (Some "a1") ≠ "user".
Proof.
  destruct (draft_keys_are_separate "a1" "a2") as [Hinj Huser]; [discriminate..|].
  split; [|exact (Huser (Some "a1"))].
  intros Heq. apply Hinj in Heq. discriminate.
Defined.

(** X7.  A draft is continued where it was left: once [setAnswer], or a
    [toggleMulti] that finds its entry, has been saved, a component that
    is mounted afresh for the same assignment identifier on the same
    [localStorage] loads exactly the answers that were in the state,
    whatever the questions of the assignment it fetches. *)
Theorem reload_continues_draft (w : World) (a a' : Assignment) (id : string)
    (h : positive) (now : Z) (accepts : bool) :
  assignmentId (client w) = Some id → id ≠ "" → assignment (client w) = Some a →
  (∀ idq value,
     ∃ w2, load_effect (LoadOk (Some a')) true h now accepts
             (mkWorld (mount (Some id)) (localStorage (call_setAnswer true idq value w)) ∅)
           = Some w2 ∧
           answers (client w2) = answers (client (call_setAnswer true idq value w))) ∧
  (∀ idq option, is_Some (findIndex (has_id idq) (answers (client w))) →
     ∃ w2, load_effect (LoadOk (Some a')) true h now accepts
             (mkWorld (mount (Some id)) (localStorage (call_toggleMulti true idq option w)) ∅)
           = Some w2 ∧
           answers (client w2) = answers (client (call_toggleMulti true idq option w))).
Proof.
  intros Hid Hne Ha.
  assert (LOCAL_STORAGE_KEY (client w) = "assignment_draft_" +:+ id) as Hkey.
  { unfold LOCAL_STORAGE_KEY. by rewrite Hid, storage_key_Some. }
  assert (∀ updater next, updater (answers (client w)) = Fresh next →
            ∃ w2, load_effect (LoadOk (Some a')) true h now accepts
                    (mkWorld (mount (Some id)) (localStorage (setAnswers true updater w)) ∅)
                  = Some w2 ∧
                  answers (client w2) = answers (client (setAnswers true updater w)))
    as Hsaved.
  { intros updater next Hnext.
    destruct (setAnswers_fresh w a updater next Ha Hnext) as (Hans & _ & Hls).
    rewrite Hkey in Hls. rewrite (load_effect_ok _ id) by done. cbn [localStorage].
    destruct (restore_written _ _ _ (Some a') (answers (client (mkWorld (mount (Some id))
                (localStorage (setAnswers true updater w)) ∅))) Hls) as [_ ->].
    cbn [mbind option_bind]. eexists. split; [done|].
    by rewrite autosave_client, Hans. }
  split.
  - intros idq value. apply (Hsaved _ (setAnswer idq value (answers (client w)))).
    unfold setAnswer, setAnswer_updater. by case_match.
  - intros idq option [idx Hidx].
    apply (Hsaved _ (toggleMulti idq option (answers (client w)))).
    unfold toggleMulti, toggleMulti_updater. by rewrite Hidx.
Qed.

Lemma reload_continues_draft_witness :
  let a := mkAssignment "a1" "Quiz" "PUBLISHED"
             (Some [mkQuestion "Why" ESSAY None None 1 None]) in
  let later := mkAssignment "a1" "Quiz" "PUBLISHED" (Some []) in
  let w := mkWorld (with_answers (initial a) (with_assignment (Some a) (mount (Some "a1"))))
                   ∅ ∅ in
  ∃ w2, load_effect (LoadOk (Some later)) true 1%positive 0 true
          (mkWorld (mount (Some "a1"))
             (localStorage (call_setAnswer true "0" (Single "because") w)) ∅) = Some w2 ∧
        answers (client w2) = [mkAnswerEntry "0" (Single "because")].
Proof.
  intros a later w.
  destruct (reload_continues_draft w a later "a1" 1%positive 0 true eq_refl) as [Hset _];
    [discriminate | reflexivity |].
  destruct (Hset "0" (Single "because")) as (w2 & Hload & Hans).
  exists w2. split; [exact Hload | exact Hans].
Defined.

(** *** Loading that fails *)

(** X8.  A load that fails starts nothing and loses nothing: when the
    fetch ends in an error, when the answer arrives after the component
    was unmounted, and when there is no assignment identifier, the
    answers, the assignment, [localStorage] and the timers are the ones
    from before.  In the first and the last case the loading flag is down
    and an error text that is not empty is set. *)
Theorem failed_load_keeps_state (w : World) (h : positive) (now : Z) (accepts : bool) :
  let kept w' :=
    answers (client w') = answers (client w) ∧
    assignment (client w') = assignment (client w) ∧
    localStorage w' = localStorage w ∧ intervals w' = intervals w ∧
    timerRef (client w') = timerRef (client w) in
  (∀ msg, ∃ w' e,
     load_effect (LoadFailed msg) true h now accepts w = Some w' ∧ kept w' ∧
     loading (client w') = false ∧ error (client w') = Some e ∧ e ≠ "") ∧
  (∀ outcome, ∃ w', load_effect outcome false h now accepts w = Some w' ∧ kept w') ∧
  (assignmentId (client w) = None ∨ assignmentId (client w) = Some "" →
   ∀ outcome mounted, ∃ w',
     load_effect outcome mounted h now accepts w = Some w' ∧ kept w' ∧
     loading (client w') = false ∧
     error (client w') = Some "No assignment ID found in route.").
Proof.
  cbv zeta. split_and!.
  - intros msg. unfold load_effect.
    destruct (assignmentId (client w)) as [id|]; [destruct (truthy_string id)|];
      (eexists _, _; split; [done|]); cbn; (split_and!; [done..|]);
      try discriminate.
    unfold or_else. destruct (truthy_string msg) eqn:Hmsg; [|discriminate].
    by apply truthy_string_true.
  - intros outcome. unfold load_effect.
    destruct (assignmentId (client w)) as [id|]; [destruct (truthy_string id)|];
      (eexists; split; [done|]); by cbn.
  - intros Hnone outcome mounted. unfold load_effect.
    destruct Hnone as [-> | ->]; (eexists; split; [done|]); by cbn.
Qed.

Lemma failed_load_keeps_state_witness :
  let w := mkWorld (mount None) {[ "user" := Unparsable "me" ]} ∅ in
  ∃ w', load_effect (LoadOk None) true 1%positive 0 true w = Some w' ∧
        error (client w') = Some "No assignment ID found in route." ∧
        localStorage w' = localStorage w.
Proof.
  intros w.
  destruct (failed_load_keeps_state w 1%positive 0 true) as (_ & _ & Hnone).
  destruct (Hnone (or_introl eq_refl) (LoadOk None) true)
    as (w' & Hload & (_ & _ & Hls & _) & _ & Herr).
  exists w'. split_and!; [exact Hload | exact Herr | exact Hls].
Defined.


(** *** What a discovery can resolve *)

Lemma enrolledCourseIds_not_string userId enrollments :
  (∀ u, userId ≠ JStr u) → enrolledCourseIds userId enrollments = [].
Proof.
  intros Hu. unfold enrolledCourseIds.
  rewrite (List_filter_none _ enrollments); [done|].
  apply Forall_forall. intros e _. unfold same_id.
  destruct (ref_id (e_studentId e)) as [s|]; [|done].
  destruct userId as [| | |u| |]; try done. by destruct (Hu u).
Qed.

(** X9.  The discovery resolves nothing of its own: an identifier that it
    returns is that of an assignment of the fetched list whose course is
    one in which the user of the cached record is enrolled, and both
    lists were fetched and answered.  The list of assignments is asked
    for only after the enrollments gave a course of that user, and a
    fetch that fails resolves nothing. *)
Theorem discovery_resolves_enrolled_only (ls : gmap string text)
    (enrollRes : Fetched (list IEnrollment)) (assignRes : Fetched (list IAssignment)) :
  let out := discoverAssignmentForUser ls enrollRes assignRes in
  (∀ id, out.1 = Some id →
     ∃ u enrollments allAssignments first,
       cached_user ls u ∧ enrollRes = Resolved (Some enrollments) ∧
       assignRes = Resolved (Some allAssignments) ∧
       first ∈ allAssignments ∧ ia_id first = id ∧
       of_enrolled_course u enrollments first ∧
       out.2 = ["/api/enrollments/my"; "/api/assignments"]) ∧
  ("/api/assignments" ∈ out.2 →
     ∃ u enrollments cid,
       cached_user ls u ∧ enrollRes = Resolved (Some enrollments) ∧
       enrolled u enrollments cid) ∧
  (enrollRes = Rejected ∨ assignRes = Rejected → out.1 = None).
Proof.
  cbv zeta. unfold discoverAssignmentForUser.
  destruct (read_userId ls) as [[userId|]|] eqn:Hread;
    [|by (split_and!; [done|intros ?%not_elem_of_nil|done])..].
  destruct (truthy userId) eqn:Htruthy;
    [|by (split_and!; [done|intros ?%not_elem_of_nil|done])].
  destruct enrollRes as [|edata].
  { split_and!; [done| |done]. cbn [fst snd]. by intros ?%list_elem_of_singleton. }
  destruct (decide (length (enrolledCourseIds userId (default [] edata)) = 0%nat))
    as [Hlen|Hlen].
  { split_and!; [done| |done]. cbn [fst snd]. by intros ?%list_elem_of_singleton. }
  assert (∃ u enrollments cid,
            cached_user ls u ∧ Resolved edata = Resolved (Some enrollments) ∧
            userId = JStr u ∧ enrolled u enrollments cid) as (u & enrollments & cid & Hu & He & -> & Hcid).
  { destruct userId as [| | |u| |];
      try (by rewrite enrolledCourseIds_not_string in Hlen).
    destruct edata as [enrollments|]; [|done].
    destruct (enrolledCourseIds (JStr u) (default [] (Some enrollments))) as [|cid rest] eqn:Hids;
      [done|].
    exists u, enrollments, cid. split_and!; [|done|done|].
    - apply read_userId_inv; [done|]. by apply truthy_string_true.
    - apply enrolledCourseIds_spec. cbn [default from_option id] in Hids.
      rewrite Hids. apply list_elem_of_here. }
  injection He as ->.
  split_and!.
  - intros id Hout. destruct assignRes as [|adata]; [done|].
    destruct (matched _ (default [] adata)) as [|first rest] eqn:Hm; [done|].
    injection Hout as <-.
    destruct adata as [allAssignments|]; [|done].
    exists u, enrollments, allAssignments, first.
    assert (first ∈ matched (enrolledCourseIds (JStr u) enrollments) allAssignments)
      as [Htest Hin]%elem_of_List_filter.
    { cbn [default from_option id] in Hm. rewrite Hm. apply list_elem_of_here. }
    split_and!; [done..| |done]. by apply matched_test.
  - intros _. by exists u, enrollments, cid.
  - intros [?| ->]; done.
Qed.

Lemma discovery_resolves_enrolled_only_witness :
  let ls : gmap string text := {[ "user" := Encoded (JObj [("_id", JStr "u1")]) ]} in
  let enrollments := [mkIEnrollment "e1" (ById "u1") (Embedded (Some "c1"))] in
  let out := discoverAssignmentForUser ls (Resolved (Some enrollments)) Rejected in
  out.1 = None ∧ out.2 = ["/api/enrollments/my"; "/api/assignments"].
Proof.
  intros ls enrollments out. split; [|reflexivity].
  apply (discovery_resolves_enrolled_only ls (Resolved (Some enrollments)) Rejected).
  right. reflexivity.
Defined.


(** *** What a submission carries *)

Lemma setAnswers_clock accepts updater w :
  timeSpentSec (client (setAnswers accepts updater w)) = timeSpentSec (client w) ∧
  startedAtRef (client (setAnswers accepts updater w)) = startedAtRef (client w) ∧
  assignmentId (client (setAnswers accepts updater w)) = assignmentId (client w) ∧
  intervals (setAnswers accepts updater w) = intervals w.
Proof.
  unfold setAnswers. destruct (updater _) as [|next]; [done|].
  rewrite autosave_client. unfold autosave. cbn.
  destruct (assignment (client w)); [|done]. by destruct (setItem _ _ _ _).
Qed.

Lemma setAnswers_answers accepts updater w :
  answers (client (setAnswers accepts updater w))
  = settle (answers (client w)) (updater (answers (client w))).
Proof.
  unfold setAnswers. destruct (updater _) as [|next]; [done|].
  by rewrite autosave_client.
Qed.

Lemma tick_client h now w :
  answers (client (tick h now w)) = answers (client w) ∧
  assignmentId (client (tick h now w)) = assignmentId (client w) ∧
  (h ∈ intervals w →
   timeSpentSec (client (tick h now w)) = (now - startedAtRef (client w)) / 1000).
Proof.
  unfold tick. case_decide; [by split_and!|].
  split_and!; [done..|]. by intros ?.
Qed.

Lemma handleSubmit_request fetch w id :
  assignmentId (client w) = Some id → id ≠ "" →
  (handleSubmit fetch w).2 = [submit_request id (client w)].
Proof.
  intros Hid Hne. unfold handleSubmit.
  by rewrite Hid, (proj2 (truthy_string_true id) Hne).
Qed.

(** X10.  The time that a submission reports is counted from the load:
    after a load at [t0] that started the interval [h], a firing at [t1]
    and then an answer given with [setAnswer], [handleSubmit] sends one
    [POST] to the submit route of the assignment whose body holds the
    whole seconds from [t0] to [t1] as [timeSpent] and, as [answers], an
    array that reads back as the answers in the state.  A submission that
    failed can be repeated: with no event in between, the same request is
    sent again. *)
Theorem submit_carries_answers_and_time (w w1 : World) (id : string)
    (a : option Assignment) (h : positive) (t0 t1 : Z) (accepts : bool) :
  assignmentId (client w) = Some id → id ≠ "" →
  load_effect (LoadOk a) true h t0 accepts w = Some w1 →
  (∀ idq value fetch,
     let w2 := call_setAnswer accepts idq value (tick h t1 w1) in
     ∃ items,
       (handleSubmit fetch w2).2
         = [ {| url := "/api/assignments/" +:+ id +:+ "/submit"; method := "POST";
                body := Some (JObj [("answers", JArr items);
                                    ("timeSpent", JNum ((t1 - t0) / 1000))]) |} ] ∧
       as_AnswerEntries items = Some (answers (client w2)) ∧
       answers (client w2) = setAnswer idq value (answers (client w1))) ∧
  (∀ fetch again w2, assignmentId (client w2) = Some id →
     (∀ status body, fetch (submit_request id (client w2)) = Http status body →
                     ok status = false) →
     (handleSubmit again (handleSubmit fetch w2).1).2 = (handleSubmit fetch w2).2).
Proof.
  intros Hid Hne Hload. rewrite (load_effect_ok _ id) in Hload by done.
  destruct (restore _ _ _ _) as [restored|]; [|done].
  cbn [mbind option_bind] in Hload.
  assert (assignmentId (client w1) = Some id ∧ startedAtRef (client w1) = t0 ∧
          h ∈ intervals w1) as (Hid1 & Ht0 & Hh).
  { injection Hload as <-. rewrite autosave_client. split_and!; [done..|].
    unfold autosave. cbn. destruct a; [|set_solver].
    destruct (setItem _ _ _ _); cbn; set_solver. }
  clear Hload. split.
  - intros idq value fetch. cbv zeta. unfold call_setAnswer.
    destruct (tick_client h t1 w1) as (Hans & Hidt & Ht1).
    destruct (setAnswers_clock accepts (setAnswer_updater idq value) (tick h t1 w1))
      as (Htime & _ & Hid2 & _).
    exists (json_of_entry <$>
              answers (client (setAnswers accepts (setAnswer_updater idq value)
                                 (tick h t1 w1)))).
    rewrite as_AnswerEntries_encode.
    rewrite (handleSubmit_request _ _ id) by (done || by rewrite Hid2, Hidt).
    split_and!; [|done|].
    + unfold submit_request. by rewrite Htime, Ht1, Ht0.
    + rewrite setAnswers_answers. by rewrite Hans.
  - intros fetch again w2 Hid2 Hfail.
    rewrite (handleSubmit_request fetch w2 id) by done.
    assert (client (handleSubmit fetch w2).1
            = with_submitting false (with_alert (alert (client (handleSubmit fetch w2).1))
                (client w2))) as Hclient.
    { unfold handleSubmit. rewrite Hid2, (proj2 (truthy_string_true id) Hne).
      cbn [fst]. destruct (fetch _) as [msg|status body] eqn:Hfetch; [done|].
      by rewrite (Hfail status body eq_refl). }
    rewrite (handleSubmit_request again _ id); [|by rewrite Hclient|done].
    by rewrite Hclient.
Qed.

Lemma submit_carries_answers_and_time_witness :
  let a := mkAssignment "a1" "Quiz" "PUBLISHED"
             (Some [mkQuestion "Why" ESSAY None None 1 None]) in
  let w := mkWorld (mount (Some "a1")) ∅ ∅ in
  let w1 := default w (load_effect (LoadOk (Some a)) true 7%positive 1000 true w) in
  ∃ items,
    (handleSubmit (λ _, NetworkError "offline")
       (call_setAnswer true "0" (Single "because") (tick 7%positive 63500 w1))).2
      = [ {| url := "/api/assignments/a1/submit"; method := "POST";
             body := Some (JObj [("answers", JArr items); ("timeSpent", JNum 62)]) |} ] ∧
    as_AnswerEntries items = Some [mkAnswerEntry "0" (Single "because")].
Proof.
  intros a w w1.
  destruct (submit_carries_answers_and_time w w1 "a1" (Some a) 7%positive 1000 63500 true
              eq_refl) as [Hsent _]; [discriminate | reflexivity |].
  destruct (Hsent "0" (Single "because") (λ _, NetworkError "offline"))
    as (items & Hrq & Hitems & _).
  exists items. split; [exact Hrq | exact Hitems].
Defined.


(** *** The answers that the form can reach *)

Lemma qId_question_ids a q idx :
  default [] (questions a) !! idx = Some q → qId q idx ∈ question_ids a.
Proof. intros Hq. unfold question_ids. apply elem_of_lookup_imap. eauto. Qed.

Lemma val_toggled id option es i entry q idx :
  findIndex (has_id id) es = Some i → es !! i = Some entry → qId q idx = id →
  val q idx (toggleMulti id option es) = Multi (toggled (current entry) option).
Proof.
  intros Hi Hentry Hq. unfold val. rewrite Hq, (toggleMulti_found _ _ _ i) by done.
  rewrite entry_for_findIndex, (findIndex_alter _ _ _ i) by done. cbn.
  by rewrite list_lookup_alter_eq, Hentry.
Qed.

Lemma val_toggled_other id option es q idx :
  qId q idx ≠ id → val q idx (toggleMulti id option es) = val q idx es.
Proof.
  intros Hne. unfold val. destruct (findIndex (has_id id) es) as [i|] eqn:Hi.
  - rewrite (toggleMulti_found _ _ _ i) by done. by rewrite (entry_for_alter_other id).
  - by rewrite (proj2 (toggleMulti_missing _ option _ Hi)).
Qed.

Lemma checkbox_checked_current entry o q idx es :
  entry_for (qId q idx) es = Some entry →
  checkbox_checked (val q idx es) o = bool_decide (o ∈ current entry).
Proof.
  intros Hentry. unfold val, current. rewrite Hentry.
  destruct (answer entry) as [s|l]; [|done]. cbn. symmetry.
  apply bool_decide_eq_false. apply not_elem_of_nil.
Qed.

(** X11.  The answers that the form builds stay in line with the
    questions.  Starting from the initial answers of an assignment, after
    any sequence of clicks and inputs of the form: the identifiers of the
    entries are those of the questions, in the order of the questions, so
    that no entry is added or lost and every question finds an entry; no
    entry holds an option twice; and two clicks on the same box leave
    every box of every question as it was.  No assumption is made on the
    [order] of the questions. *)
Theorem form_keeps_entries_in_line (a : Assignment) (es : list AnswerEntry) :
  edited a es →
  questionId <$> es = question_ids a ∧
  length es = length (default [] (questions a)) ∧
  (∀ q idx, default [] (questions a) !! idx = Some q →
     is_Some (entry_for (qId q idx) es)) ∧
  Forall (λ e, NoDup (current e)) es ∧
  (∀ id option q idx o,
     checkbox_checked (val q idx (toggleMulti id option (toggleMulti id option es))) o
     = checkbox_checked (val q idx es) o).
Proof.
  intros Hed.
  assert (questionId <$> es = question_ids a ∧ Forall (λ e, NoDup (current e)) es)
    as [Hids Hnd].
  { induction Hed as [|es q idx option _ [IHids IHnd] Hq|es q idx s _ [IHids IHnd] Hq].
    - split; [apply initial_ids | apply initial_no_repetition].
    - split; [by rewrite toggleMulti_ids | by apply toggleMulti_no_repetition].
    - split; [|by apply setAnswer_no_repetition].
      rewrite setAnswer_ids_found; [done|]. rewrite IHids. by apply qId_question_ids. }
  assert (∀ id, id ∈ questionId <$> es → ∃ i entry,
            findIndex (has_id id) es = Some i ∧ es !! i = Some entry ∧
            entry_for id es = Some entry) as Hfound.
  { intros id Hin. destruct (findIndex (has_id id) es) as [i|] eqn:Hi.
    - destruct (findIndex_lookup _ _ _ Hi) as [entry Hentry].
      exists i, entry. split_and!; [done..|]. rewrite entry_for_findIndex, Hi. by cbn.
    - apply findIndex_None in Hi. rewrite Forall_forall in Hi.
      apply list_elem_of_fmap in Hin as (e & -> & He). by destruct (Hi e He). }
  split_and!; [done| | |done|].
  - rewrite <- (length_fmap questionId), Hids. unfold question_ids. apply length_imap.
  - intros q idx Hq. destruct (Hfound (qId q idx)) as (i & entry & _ & _ & ->); [|done].
    rewrite Hids. by apply qId_question_ids.
  - intros id option q idx o. destruct (decide (qId q idx = id)) as [Hid|Hne].
    2: { by rewrite !val_toggled_other. }
    destruct (findIndex (has_id id) es) as [i|] eqn:Hi.
    2: { by rewrite !(proj2 (toggleMulti_missing _ option _ Hi)). }
    destruct (findIndex_lookup _ _ _ Hi) as [entry Hentry].
    assert (NoDup (current entry)) as Hcur.
    { rewrite Forall_forall in Hnd. apply Hnd. by eapply list_elem_of_lookup_2. }
    rewrite (val_toggled id option _ i (toggle_entry option entry));
      [|by rewrite (toggleMulti_found _ _ _ i) by done; apply findIndex_alter
       |by rewrite (toggleMulti_found _ _ _ i), list_lookup_alter_eq, Hentry by done
       |done].
    rewrite (checkbox_checked_current entry)
      by (rewrite Hid, entry_for_findIndex, Hi; by cbn).
    cbn. apply bool_decide_ext.
    by rewrite (proj1 (toggled_twice _ option Hcur)).
Qed.

Lemma form_keeps_entries_in_line_witness :
  let a := mkAssignment "a1" "Quiz" "PUBLISHED"
             (Some [mkQuestion "Pick" MULTIPLE_CHOICE (Some ["A"; "B"]) (Some (Multi ["A"]))
                      1 None;
                    mkQuestion "Why" ESSAY None None 1 (Some 0)]) in
  let es := setAnswer "0" (Single "because") (toggleMulti "0" "A" (initial a)) in
  questionId <$> es = ["0"; "0"] ∧ length es = 2%nat.
Proof.
  intros a es.
  destruct (form_keeps_entries_in_line a es) as (Hids & Hlen & _).
  - apply (edited_text a _ (mkQuestion "Why" ESSAY None None 1 (Some 0)) 1 "because");
      [|reflexivity].
    apply (edited_box a _ (mkQuestion "Pick" MULTIPLE_CHOICE (Some ["A"; "B"])
                             (Some (Multi ["A"])) 1 None) 0 "A"); [|reflexivity].
    apply edited_initial.
  - split; [exact Hids | exact Hlen].
Defined.


(** *** Questions with different identifiers *)






(** *** The screen after a load *)

Lemma setAnswers_screen accepts updater w :
  screen (client (setAnswers accepts updater w)) = screen (client w).
Proof.
  unfold setAnswers. destruct (updater _) as [|next]; [done|].
  by rewrite autosave_client.
Qed.

(** X13.  The load decides what is on the screen.  Without an
    assignment identifier the screen says so.  With one: while the answer
    is awaited the loading text is shown; a load that fails shows the
    message of the error, or the fixed text when the message is empty; a
    load that brings no assignment shows that it was not found; a load
    that brings an assignment shows the form of that assignment; and an
    answer that arrives after the component was unmounted changes
    nothing.  Answering and submitting never leave the screen that is
    shown. *)
Theorem load_decides_the_screen (w : World) (h : positive) (now : Z) (accepts : bool) :
  (assignmentId (client w) = None ∨ assignmentId (client w) = Some "" →
   screen (client w) = NoIdScreen ∧
   ∀ outcome mounted, ∃ w',
     load_effect outcome mounted h now accepts w = Some w' ∧
     screen (client w') = NoIdScreen) ∧
  (∀ id, assignmentId (client w) = Some id → id ≠ "" →
     screen (mount (Some id)) = LoadingScreen ∧
     (∀ msg, ∃ w',
        load_effect (LoadFailed msg) true h now accepts w = Some w' ∧
        screen (client w')
          = ErrorScreen (if decide (msg = "") then "Failed to load assignment" else msg)) ∧
     (∀ a restored,
        restore (localStorage w) ("assignment_draft_" +:+ id) a (answers (client w))
          = Some restored →
        ∃ w', load_effect (LoadOk a) true h now accepts w = Some w' ∧
              screen (client w')
                = match a with Some a => FormScreen a | None => NotFoundScreen end) ∧
     (∀ outcome, ∃ w',
        load_effect outcome false h now accepts w = Some w' ∧
        screen (client w') = LoadingScreen)) ∧
  (∀ idq value, screen (client (call_setAnswer accepts idq value w)) = screen (client w)) ∧
  (∀ idq option, screen (client (call_toggleMulti accepts idq option w)) = screen (client w)) ∧
  (∀ fetch, screen (client (handleSubmit fetch w).1) = screen (client w)).
Proof.
  split_and!.
  - intros Hnone. split.
    + unfold screen. by destruct Hnone as [-> | ->].
    + intros outcome mounted. unfold load_effect.
      destruct Hnone as [Hid | Hid]; rewrite Hid; (eexists; split; [done|]);
        unfold screen; cbn; by rewrite Hid.
  - intros id Hid Hne. pose proof (proj2 (truthy_string_true id) Hne) as Htruthy.
    split_and!.
    + unfold screen. cbn. by rewrite Htruthy.
    + intros msg. unfold load_effect. rewrite Hid, Htruthy.
      eexists. split; [done|]. unfold screen. cbn. rewrite Hid, Htruthy. cbn.
      destruct (decide (msg = "")) as [->|Hmsg]; [done|].
      unfold or_else. by rewrite !(proj2 (truthy_string_true msg) Hmsg).
    + intros a restored Hrestored. rewrite (load_effect_ok _ id) by done.
      rewrite Hrestored. cbn [mbind option_bind]. eexists. split; [done|].
      rewrite autosave_client. unfold screen. cbn. by rewrite Hid, Htruthy.
    + intros outcome. unfold load_effect. rewrite Hid, Htruthy.
      eexists. split; [done|]. unfold screen. cbn. by rewrite Hid, Htruthy.
  - intros idq value. apply setAnswers_screen.
  - intros idq option. apply setAnswers_screen.
  - intros fetch. unfold handleSubmit.
    destruct (assignmentId (client w)) as [id|] eqn:Hid; [|by unfold screen; cbn; rewrite Hid].
    destruct (truthy_string id) eqn:Htruthy; [|by unfold screen; cbn; rewrite Hid].
    destruct (fetch _) as [msg|status body]; [by unfold screen; cbn; rewrite Hid|].
    destruct (ok status); [|by unfold screen; cbn; rewrite Hid].
    unfold stop_timer. cbn. destruct (timerRef (client w)); by unfold screen; cbn; rewrite Hid.
Qed.

Lemma load_decides_the_screen_witness :
  let w := mkWorld (mount (Some "a1")) ∅ ∅ in
  ∃ w', load_effect (LoadFailed "") true 1%positive 0 true w = Some w' ∧
        screen (client w') = ErrorScreen "Failed to load assignment".
Proof.
  intros w.
  destruct (load_decides_the_screen w 1%positive 0 true) as (_ & Hid & _).
  destruct (Hid "a1" eq_refl) as (_ & Hfailed & _); [discriminate|].
  exact (Hfailed "").
Defined.


(** *** One control at a time *)

(** X14.  A question shows its last input and nothing else.  After a
    radio button or a text area has called [setAnswer] with a string, the
    question with that identifier has exactly the radio buttons of that
    string checked, its text area shows the string and none of its boxes
    is checked.  After a box has called [toggleMulti] and an entry was
    found, no radio button of the question is checked and its text area
    is empty. *)
Theorem question_shows_last_input (prev : list AnswerEntry) (q : Question) (idx : nat) :
  (∀ s, let after := setAnswer (qId q idx) (Single s) prev in
        (∀ opt, radio_checked (val q idx after) opt = true ↔ opt = s) ∧
        textarea_value (val q idx after) = s ∧
        ∀ opt, checkbox_checked (val q idx after) opt = false) ∧
  (∀ option, is_Some (findIndex (has_id (qId q idx)) prev) →
        let after := toggleMulti (qId q idx) option prev in
        (∀ opt, radio_checked (val q idx after) opt = false) ∧
        textarea_value (val q idx after) = "").
Proof.
  split.
  - intros s. cbv zeta.
    assert (val q idx (setAnswer (qId q idx) (Single s) prev) = Single s) as ->.
    { unfold val. destruct (findIndex (has_id (qId q idx)) prev) as [i|] eqn:Hi.
      - rewrite (setAnswer_found _ _ _ i), entry_for_alter_same by done.
        by destruct (findIndex_lookup _ _ _ Hi) as [e ->].
      - by rewrite setAnswer_missing, entry_for_pushed by done. }
    split_and!; [|done..]. intros opt. cbn. rewrite bool_decide_eq_true. naive_solver.
  - intros option [i Hi]. cbv zeta.
    destruct (findIndex_lookup _ _ _ Hi) as [entry Hentry].
    by rewrite (val_toggled _ option _ i entry).
Qed.

Lemma question_shows_last_input_witness :
  let q := mkQuestion "Sky is blue" TRUE_FALSE None (Some (Single "true")) 1 None in
  let after := toggleMulti "0" "A" (setAnswer "0" (Single "true") []) in
  radio_checked (val q 0 after) "true" = false ∧ textarea_value (val q 0 after) = "".
Proof.
  intros q after.
  destruct (question_shows_last_input (setAnswer "0" (Single "true") []) q 0%nat)
    as [_ Hbox].
  destruct (Hbox "A") as [Hradio Htext]; [by exists 0%nat|].
  split; [exact (Hradio "true") | exact Htext].
Defined.

(** *** A draft after a submission *)




End TakingFacts.


(** * Further properties of the review component *)

Module ReviewFacts.
Import Review ReviewSpec ReviewProofs.

(** *** Fetching the list *)






(** *** The page buttons *)

Lemma nextPage_iter n st :
  page st ≤ totalPages st →
  Nat.iter n nextPage st
  = with_page (Z.min (totalPages st) (page st + Z.of_nat n)) st.
Proof.
  intros Hp. induction n as [|n IH].
  - cbn. rewrite Z.add_0_r, Z.min_r by lia. by destruct st.
  - rewrite Nat.iter_succ, IH. unfold nextPage at 1.
    change (totalPages (with_page _ st)) with (totalPages st).
    unfold with_page; cbn. f_equal. lia.
Qed.

Lemma prevPage_iter n st :
  1 ≤ page st →
  Nat.iter n prevPage st = with_page (Z.max 1 (page st - Z.of_nat n)) st.
Proof.
  intros Hp. induction n as [|n IH].
  - cbn. rewrite Z.sub_0_r, Z.max_r by lia. by destruct st.
  - rewrite Nat.iter_succ, IH. unfold prevPage at 1.
    unfold with_page; cbn. f_equal. lia.
Qed.

(** X17.  The page buttons never leave the pages that exist.  From a
    page between 1 and [totalPages], [n] clicks on Next lead to the page
    [n] further or to the last page, whichever comes first, and [n] clicks
    on Prev to the page [n] before or to the first; neither changes the
    filtered rows.  Choosing a status in the filter goes back to page 1.
    Typing in the search field keeps the page number, whatever the number
    of rows that are left. *)
Theorem page_buttons_stay_in_range (st : State) :
  1 ≤ page st ≤ totalPages st →
  (∀ n, let st' := Nat.iter n nextPage st in
        page st' = Z.min (totalPages st) (page st + Z.of_nat n) ∧
        1 ≤ page st' ≤ totalPages st' ∧ filteredList st' = filteredList st) ∧
  (∀ n, let st' := Nat.iter n prevPage st in
        page st' = Z.max 1 (page st - Z.of_nat n) ∧
        1 ≤ page st' ≤ totalPages st' ∧ filteredList st' = filteredList st) ∧
  (∀ v, let st' := onChangeFilterStatus v st in
        page st' = 1 ∧ 1 ≤ page st' ≤ totalPages st' ∧ filterStatus st' = v ∧
        submissions st' = submissions st ∧ search st' = search st) ∧
  (∀ v, let st' := onChangeSearch v st in
        page st' = page st ∧ search st' = v ∧ filterStatus st' = filterStatus st ∧
        submissions st' = submissions st).
Proof.
  intros [Hlow Hhigh]. split_and!.
  - intros n. cbv zeta. rewrite nextPage_iter by done.
    change (totalPages (with_page _ st)) with (totalPages st).
    split_and!; [done| | |done]; cbn; lia.
  - intros n. cbv zeta. rewrite prevPage_iter by done.
    change (totalPages (with_page _ st)) with (totalPages st).
    split_and!; [done| | |done]; cbn; lia.
  - intros v. cbv zeta. split_and!; try done.
    apply (totalPages_covers (onChangeFilterStatus v st)).
  - intros v. by cbv zeta.
Qed.

Lemma page_buttons_stay_in_range_witness :
  let row i := mkSubmission i None None "SUBMITTED" Undefined 1 "" None None in
  let st := mkState false false None (row <$> ["a"; "b"; "c"; "d"; "e"; "f"; "g"; "h"; "i";
                                                "j"; "k"; "l"; "m"])
                    None None false "ALL" "" 1 in
  page (nextPage (nextPage (nextPage st))) = 2 ∧ page (prevPage st) = 1.
Proof.
  intros row st.
  destruct (page_buttons_stay_in_range st) as (Hnext & Hprev & _).
  - by_evaluation.
  - split; [exact (proj1 (Hnext 3%nat)) | exact (proj1 (Hprev 1%nat))].
Defined.

(** *** The rows of a page and the text under the table *)

Lemma ceil_div_bounds (n : Z) :
  0 ≤ n → 12 * (ceil_div n 12 - 1) < n ≤ 12 * ceil_div n 12 ∨ (n = 0 ∧ ceil_div n 12 = 0).
Proof.
  intros Hn. unfold ceil_div.
  pose proof (Z.div_mod (- n) 12) as Hdiv.
  pose proof (Z.mod_pos_bound (- n) 12) as Hmod. lia.
Qed.

(** X18.  The text under the table counts the rows that the table
    shows.  On a page between 1 and [totalPages] the rows of the page are
    the filtered rows from the position "Showing ..." to the position
    "... - ...", and their number is the difference of the two, plus one;
    the page has a row whenever a row passes the filter.  On a page
    beyond [totalPages] the table is empty and the first number of the
    text is greater than the second. *)
Theorem page_shows_what_label_says (st : State) :
  (1 ≤ page st ≤ totalPages st →
   pageItems st
     = take (Z.to_nat (showing_to st - showing_from st + 1))
         (drop (Z.to_nat (showing_from st - 1)) (filteredList st)) ∧
   Z.of_nat (length (pageItems st)) = showing_to st - showing_from st + 1 ∧
   (filteredList st ≠ [] → pageItems st ≠ [])) ∧
  (totalPages st < page st →
   pageItems st = [] ∧ showing_to st < showing_from st).
Proof.
  pose proof (ceil_div_bounds (totalFiltered st)) as Hceil.
  assert (pageItems st
          = take 12 (drop (Z.to_nat ((page st - 1) * 12)) (filteredList st))
          ∨ page st < 1) as Hitems.
  { destruct (decide (1 ≤ page st)) as [Hp|Hp]; [left|right; lia].
    unfold pageItems, PAGE_SIZE. by rewrite slice_from by lia. }
  unfold showing_to, showing_from, totalPages, PAGE_SIZE in *.
  unfold totalFiltered in *.
  split.
  - intros [Hlow Hhigh]. destruct Hitems as [Hitems|?]; [|lia].
    assert (length (pageItems st)
            = Z.to_nat (Z.min (page st * 12) (Z.of_nat (length (filteredList st)))
                        - ((page st - 1) * 12 + 1) + 1)) as Hlen.
    { rewrite Hitems, length_take, length_drop. lia. }
    split_and!.
    + rewrite Hitems. replace ((page st - 1) * 12 + 1 - 1) with ((page st - 1) * 12) by lia.
      destruct (decide (page st * 12 ≤ Z.of_nat (length (filteredList st)))).
      * f_equal. lia.
      * by rewrite !take_ge by (rewrite length_drop; lia).
    + rewrite Hlen. lia.
    + intros Hne Hnil. rewrite Hnil in Hlen. cbn in Hlen.
      destruct (filteredList st) as [|x l]; [done|]. cbn [length] in *. lia.
  - intros Hout. destruct Hitems as [Hitems|?]; [|lia]. split; [|lia].
    rewrite Hitems, drop_ge; [done|lia].
Qed.

Lemma page_shows_what_label_says_witness :
  let row i := mkSubmission i None None "SUBMITTED" Undefined 1 "" None None in
  let st := mkState false false None (row <$> ["a"; "b"; "c"; "d"; "e"; "f"; "g"; "h"; "i";
                                                "j"; "k"; "l"; "m"])
                    None None false "ALL" "" 2 in
  Z.of_nat (length (pageItems st)) = 1 ∧ showing_from st = 13 ∧ showing_to st = 13.
Proof.
  intros row st.
  destruct (page_shows_what_label_says st) as [Hin _].
  destruct Hin as (_ & Hlen & _); [by_evaluation|].
  split_and!; [exact Hlen | reflexivity | reflexivity].
Defined.


(** *** Typing a grade *)

Lemma saveGrade_request fetch st sel g :
  selected st = Some sel → grading st = Some g →
  (saveGrade fetch st).2 = [grade_request sel g].
Proof. intros Hsel Hg. unfold saveGrade. by rewrite Hsel, Hg. Qed.

(** X19.  What the teacher types is what is sent.  Opening a submission
    offers its score, if it has one, and no feedback; the score field and
    the feedback field do not disturb each other: in either order the
    two inputs give the same grade, and of two inputs into the same field
    the last one counts.  Saving then sends the typed score and the typed
    feedback for the opened submission; saving at once sends the score of
    the submission, if any, and no feedback.  Typing changes neither the
    rows nor the opened submission, and without an opened submission
    nothing is sent and nothing changes. *)
Theorem typed_grade_is_sent (Number : string → Z) (fetch : Request → Response Body)
    (sub : Submission) (st : State) :
  (∀ v f, onChangeScore Number v (onChangeFeedback f st)
          = onChangeFeedback f (onChangeScore Number v st)) ∧
  (∀ v v', onChangeScore Number v' (onChangeScore Number v st)
           = onChangeScore Number v' st) ∧
  (∀ f f', onChangeFeedback f' (onChangeFeedback f st) = onChangeFeedback f' st) ∧
  (∀ v f, v ≠ "" →
     (saveGrade fetch (onChangeFeedback f (onChangeScore Number v (openDetail sub st)))).2
     = [grade_request sub {| g_score := Some (Number v); g_feedback := Some f |}]) ∧
  (saveGrade fetch (openDetail sub st)).2
    = [grade_request sub {| g_score := match score sub with Num n => Some n | _ => None end;
                            g_feedback := None |}] ∧
  (∀ v f, let st' := onChangeFeedback f (onChangeScore Number v st) in
          submissions st' = submissions st ∧ selected st' = selected st ∧
          page st' = page st ∧ error st' = error st) ∧
  (selected st = None → saveGrade fetch st = (st, [])).
Proof.
  split_and!.
  - intros v f. unfold onChangeScore, onChangeFeedback. cbn.
    by destruct (grading st) as [[? ?]|].
  - done.
  - done.
  - intros v f Hv. rewrite (saveGrade_request _ _ sub
                              {| g_score := Some (Number v); g_feedback := Some f |}).
    + done.
    + done.
    + unfold onChangeFeedback, onChangeScore. cbn. by rewrite decide_False.
  - by apply saveGrade_request.
  - done.
  - intros Hsel. unfold saveGrade. by rewrite Hsel.
Qed.

Lemma typed_grade_is_sent_witness :
  let sub := mkSubmission "s1" (Some "a1") None "SUBMITTED" (Num 4) 1 "" None None in
  let st := mkState false false None [sub] None None false "ALL" "" 1 in
  (saveGrade (λ _, NetworkError "offline")
     (onChangeFeedback "well done" (onChangeScore (λ _, 9) "9" (openDetail sub st)))).2
  = [ {| url := "/api/submissions/s1"; method := "PUT";
         body := Some (JObj [("score", JNum 9); ("status", JStr "GRADED");
                             ("feedback", JStr "well done")]) |} ].
Proof.
  intros sub st.
  destruct (typed_grade_is_sent (λ _, 9) (λ _, NetworkError "offline") sub st)
    as (_ & _ & _ & Hsent & _).
  apply (Hsent "9" "well done"). discriminate.
Defined.

(** *** A saved grade and the filter *)

Lemma saveGrade_saved fetch st sel g code answer :
  selected st = Some sel → grading st = Some g →
  fetch (grade_request sel g) = Http code answer → ok code = true →
  (saveGrade fetch st).1
  = with_savingGrade false (closeDetail (apply_grade sel g (with_savingGrade true st))).
Proof.
  intros Hsel Hg Hfetch Hok. unfold saveGrade. by rewrite Hsel, Hg, Hfetch, Hok.
Qed.

Lemma kept_same_filter st st' s :
  filterStatus st' = filterStatus st → search st' = search st → kept st' s = kept st s.
Proof. intros Hf Hs. unfold kept. by rewrite Hf, Hs. Qed.

Lemma List_filter_map {A B} (f : B → bool) (h : A → B) (l : list A) :
  List.filter f (map h l) = map h (List.filter (λ x, f (h x)) l).
Proof.
  induction l as [|x l IH]; [done|]. cbn. destruct (f (h x)); cbn; by rewrite IH.
Qed.

Lemma map_List_filter_id {A} (h : A → A) (f : A → bool) (l : list A) :
  (∀ x, f x = true → h x = x) → map h (List.filter f l) = List.filter f l.
Proof.
  intros Hh. induction l as [|x l IH]; [done|]. cbn.
  destruct (f x) eqn:Hx; [|done]. cbn. by rewrite IH, Hh.
Qed.

Lemma List_filter_weaker_sublist {A B} (k : A → B) (f f' : A → bool) (l : list A) :
  (∀ x, f x = true → f' x = true) →
  k <$> List.filter f l `sublist_of` k <$> List.filter f' l.
Proof.
  intros Hf. induction l as [|x l IH]; [done|]. cbn.
  destruct (f x) eqn:Hx.
  - rewrite (Hf x Hx). cbn. by constructor.
  - destruct (f' x); cbn; [by constructor|done].
Qed.

(** What the search looks at, apart from the status. *)
Lemma kept_ALL_search st p :
  kept (with_filterStatus "ALL" st) p
  = (negb (truthy_string (trim (search st)))
     || contains_ci (student_name p) (trim (search st))
     || contains_ci (student_email p) (trim (search st))
     || contains_ci (nullish (assignmentId p) "") (trim (search st))).
Proof.
  unfold kept. cbn [filterStatus search with_filterStatus].
  by rewrite String.eqb_refl, orb_true_l, andb_true_l.
Qed.

Lemma kept_status_search st p :
  kept st p
  = (String.eqb (filterStatus st) "ALL" || String.eqb (status p) (filterStatus st))
    && kept (with_filterStatus "ALL" st) p.
Proof. by rewrite kept_ALL_search. Qed.

Lemma kept_graded st g p :
  kept st (graded g p)
  = (String.eqb (filterStatus st) "ALL" || String.eqb "GRADED" (filterStatus st))
    && kept (with_filterStatus "ALL" st) p.
Proof. rewrite kept_status_search. by rewrite !kept_ALL_search. Qed.

(** X20.  A saved grade and the table.  After a grade has been saved
    the rows are the same submissions in the same order, and the filter,
    the search text and the page number are as before.  With the status
    filter on "ALL" the table shows the same submissions as before, on as
    many pages.  With the filter on a status other than "GRADED" the
    graded submission leaves the table and the other rows stay; with the
    filter on "GRADED" every row that was shown is still shown. *)
Theorem saved_grade_and_the_filter (fetch : Request → Response Body) (st : State)
    (sel : Submission) (g : Grading) (code : Z) (answer : option Body) :
  selected st = Some sel → grading st = Some g →
  fetch (grade_request sel g) = Http code answer → ok code = true →
  let st' := (saveGrade fetch st).1 in
  s_id <$> submissions st' = s_id <$> submissions st ∧
  filterStatus st' = filterStatus st ∧ search st' = search st ∧ page st' = page st ∧
  (filterStatus st = "ALL" →
   s_id <$> filteredList st' = s_id <$> filteredList st ∧
   totalPages st' = totalPages st) ∧
  (filterStatus st ≠ "ALL" → filterStatus st ≠ "GRADED" →
   filteredList st'
     = List.filter (λ p, bool_decide (s_id p ≠ s_id sel)) (filteredList st) ∧
   Forall (λ p, s_id p ≠ s_id sel) (filteredList st')) ∧
  (filterStatus st = "GRADED" →
   s_id <$> filteredList st `sublist_of` s_id <$> filteredList st').
Proof.
  intros Hsel Hg Hfetch Hok. cbv zeta.
  rewrite (saveGrade_saved _ _ sel g code answer) by done.
  set (patch := λ p, if decide (s_id p = s_id sel) then graded g p else p).
  set (st' := with_savingGrade false _).
  assert (submissions st' = map patch (submissions st)) as Hrows by done.
  assert (∀ p, s_id (patch p) = s_id p) as Hpatch_id.
  { intros p. unfold patch. by case_decide. }
  assert (∀ p, kept st' p = kept st p) as Hkept by (intros p; by apply kept_same_filter).
  assert (∀ p, kept st (patch p)
               = if decide (s_id p = s_id sel)
                 then (String.eqb (filterStatus st) "ALL"
                       || String.eqb "GRADED" (filterStatus st))
                      && (kept (with_filterStatus "ALL" st) p)
                 else kept st p) as Hpatched.
  { intros p. unfold patch. case_decide; [|done]. apply kept_graded. }
  assert (filteredList st' = map patch (List.filter (λ p, kept st (patch p)) (submissions st)))
    as Hlist.
  { by rewrite filteredList_kept, Hrows, List_filter_map. }
  split_and!; try done.
  - rewrite Hrows. change (map patch ?l) with (patch <$> l).
    rewrite <- list_fmap_compose. apply list_fmap_ext. intros ? p _. apply Hpatch_id.
  - intros Hall.
    assert (s_id <$> filteredList st' = s_id <$> filteredList st) as Hids.
    { rewrite Hlist, (filteredList_kept st). change (map patch ?l) with (patch <$> l).
      rewrite <- list_fmap_compose.
      rewrite (list_fmap_ext (s_id ∘ patch) s_id) by (intros ? p _; apply Hpatch_id).
      f_equal. apply filter_ext. intros p. rewrite Hpatched. case_decide; [|done].
      rewrite (kept_status_search st p), Hall.
      by rewrite String.eqb_refl, !orb_true_l. }
    split; [done|]. unfold totalPages, totalFiltered.
    by rewrite <- (length_fmap s_id (filteredList st')), Hids, length_fmap.
  - intros Hnall Hngraded.
    assert (String.eqb (filterStatus st) "ALL" = false) as HfA by (by apply String.eqb_neq).
    assert (String.eqb "GRADED" (filterStatus st) = false) as HfG
      by (apply String.eqb_neq; congruence).
    assert (filteredList st'
            = List.filter (λ p, bool_decide (s_id p ≠ s_id sel)) (filteredList st)) as Heq.
    { rewrite Hlist, (filteredList_kept st), List_filter_and.
      rewrite (filter_ext (λ p, kept st (patch p))
                 (λ p, kept st p && bool_decide (s_id p ≠ s_id sel))).
      - apply map_List_filter_id. intros p [_ Hp%bool_decide_eq_true]%andb_true_iff.
        unfold patch. by rewrite decide_False.
      - intros p. rewrite Hpatched. case_decide.
        + rewrite HfA, HfG, orb_false_l, andb_false_l.
          rewrite bool_decide_eq_false_2 by tauto. by rewrite andb_false_r.
        + rewrite bool_decide_eq_true_2 by done. by rewrite andb_true_r. }
    split; [done|]. rewrite Heq. apply Forall_forall.
    intros p [Hp _]%TakingProofs.elem_of_List_filter. by apply bool_decide_eq_true in Hp.
  - intros Hgraded. rewrite Hlist, (filteredList_kept st).
    change (map patch ?l) with (patch <$> l). rewrite <- list_fmap_compose.
    rewrite (list_fmap_ext (s_id ∘ patch) s_id) by (intros ? p _; apply Hpatch_id).
    apply List_filter_weaker_sublist. intros p Hp.
    rewrite Hpatched. case_decide; [|done].
    rewrite kept_status_search in Hp. apply andb_true_iff in Hp as [_ Hp].
    by rewrite Hp, Hgraded, String.eqb_refl, orb_true_r.
Qed.

Lemma saved_grade_and_the_filter_witness :
  let s1 := mkSubmission "s1" (Some "a1") None "SUBMITTED" Undefined 1 "" None None in
  let s2 := mkSubmission "s2" (Some "a1") None "SUBMITTED" Undefined 1 "" None None in
  let st := mkState false false None [s1; s2] (Some s1) (Some (mkGrading (Some 7) None))
                    false "SUBMITTED" "" 1 in
  filteredList (saveGrade (λ _, Http 200 None) st).1 = [s2].
Proof.
  intros s1 s2 st.
  destruct (saved_grade_and_the_filter (λ _, Http 200 None) st s1 (mkGrading (Some 7) None)
              200 None eq_refl eq_refl eq_refl eq_refl) as (_ & _ & _ & _ & _ & Hout & _).
  destruct Hout as [Heq _]; [discriminate | discriminate |].
  rewrite Heq. reflexivity.
Defined.


(** *** The search text *)
















End ReviewFacts.
